(** * One-state Gillespie simulation: a shallow embedding of
      [gillespie_python_helpers.py] and the properties of its checkpoint
      recorder.

    Numbers.  Python floats and ints are modelled by exact rationals [Q];
    the result of [np.mean] additionally has the value [NaN].

    Objects.  NumPy arrays are heap objects: a variable holds a reference
    [loc] into a store of arrays, and every NumPy call of the source that
    builds an array ([np.copy], [arr + tau], [np.append], [np.delete])
    allocates a new object.

    Randomness.  [np.random] is a source of raw draws threaded through the
    run: standard exponential variates for [exponential], uniform variates
    of [0,1) for [binomial], and naturals for [randint].

    Failure.  A call either returns, raises a Python exception, or is still
    running when the finite prefix of the random source given to the model
    is used up ([Starved]).  The recursion of [_recursive_update_output] is
    bounded by the number of stack frames the interpreter allows, and
    raises [RecursionError] beyond it. *)

From Stdlib Require Import List QArith ZArith Lia Lqa Bool Arith.
Import ListNotations.
Open Scope Q_scope.

(** ** Outcomes and the simulation monad *)

Inductive exn : Type :=
| ZeroDivisionError
| ValueError
| RecursionError.

Inductive outcome (A : Type) : Type :=
| Ok (a : A)
| Raise (e : exn)
| Starved.

Arguments Ok {A} a.
Arguments Raise {A} e.
Arguments Starved {A}.

(** The contents of a one-dimensional array of floats, and a reference to
    an array in the store. *)
Abbreviation ndarray := (list Q) (only parsing).
Abbreviation loc := nat (only parsing).

(** The world a call runs in: the object store and what is left of the
    three streams of raw random draws. *)
Record world : Type := World {
  heap : list ndarray;
  expos : list Q;
  unifs : list Q;
  picks : list nat
}.

Definition M (A : Type) : Type := world -> outcome (A * world).

Definition ret {A} (a : A) : M A := fun w => Ok (a, w).

Definition bind {A B} (m : M A) (k : A -> M B) : M B :=
  fun w =>
    match m w with
    | Ok (a, w') => k a w'
    | Raise e => Raise e
    | Starved => Starved
    end.

Definition raise {A} (e : exn) : M A := fun _ => Raise e.

Notation "x <- m ;; k" := (bind m (fun x => k))
  (at level 61, m at next level, right associativity).
Notation "' pat <- m ;; k" := (bind m (fun x => match x with pat => k end))
  (at level 61, pat pattern, m at next level, right associativity).

(** ** The object store *)

Definition deref (a : loc) (h : list ndarray) : ndarray := nth a h [].

Definition alloc (v : ndarray) : M loc :=
  fun w => Ok (length (heap w),
               World (heap w ++ [v]) (expos w) (unifs w) (picks w)).

(** [arr.size] *)
Definition np_size (a : loc) : M nat :=
  fun w => Ok (length (deref a (heap w)), w).

(** [np.copy(arr)] *)
Definition np_copy (a : loc) : M loc :=
  fun w => alloc (deref a (heap w)) w.

(** [arr + x] with a scalar [x]: a new array, [arr] is left as it is. *)
Definition np_add (a : loc) (x : Q) : M loc :=
  fun w => alloc (map (fun y => y + x) (deref a (heap w))) w.

(** [np.append(arr, x)] *)
Definition np_append (a : loc) (x : Q) : M loc :=
  fun w => alloc (deref a (heap w) ++ [x]) w.

Fixpoint remove_at {A} (i : nat) (l : list A) : list A :=
  match l with
  | [] => []
  | x :: l' => match i with
               | O => l'
               | S i' => x :: remove_at i' l'
               end
  end.

(** [np.delete(arr, i)] for an index [i] inside the array. *)
Definition np_delete (a : loc) (i : nat) : M loc :=
  fun w => alloc (remove_at i (deref a (heap w))) w.

(** ** Arithmetic and the random source *)

(** Python's [a / b] on Python numbers. *)
Definition py_div (a b : Q) : M Q :=
  if Qeq_bool b 0 then raise ZeroDivisionError else ret (a / b).

Definition Qltb (x y : Q) : bool := negb (Qle_bool y x).

(** [np.random.exponential(scale)]: a negative scale is refused, otherwise
    the next standard exponential variate is scaled. *)
Definition np_random_exponential (scale : Q) : M Q :=
  if Qltb scale 0 then raise ValueError
  else fun w =>
    match expos w with
    | [] => Starved
    | e :: es => Ok (scale * e, World (heap w) es (unifs w) (picks w))
    end.

(** [np.random.binomial(n=1, p=p)]: [p] outside [0,1] is refused, otherwise
    one Bernoulli trial decided by the next uniform variate. *)
Definition np_random_binomial1 (p : Q) : M Z :=
  if Qltb p 0 || Qltb 1 p then raise ValueError
  else fun w =>
    match unifs w with
    | [] => Starved
    | u :: us =>
        Ok ((if Qltb u p then 1%Z else 0%Z),
            World (heap w) (expos w) us (picks w))
    end.

(** [np.random.randint(0, high)]: an empty range is refused. *)
Definition np_random_randint0 (high : nat) : M nat :=
  match high with
  | O => raise ValueError
  | S _ => fun w =>
      match picks w with
      | [] => Starved
      | r :: rs =>
          Ok ((r mod high)%nat, World (heap w) (expos w) (unifs w) rs)
      end
  end.

(** ** The checkpoint record *)

(** A [pd.Series] of arrays: index labels paired with array references. *)
Definition series : Type := list (Q * loc).

(** [pd.Series([np.copy(sim_arr)], index=[label])] *)
Definition singleton_series (label : Q) (sim_arr : loc) : M series :=
  c <- np_copy sim_arr ;;
  ret [(label, c)].

(** [series.append(other)] *)
Definition series_append (s other : series) : series := s ++ other.

(** The result of [np.mean]. *)
Inductive float : Type :=
| Fin (q : Q)
| NaN.

Definition Qsum (l : list Q) : Q := fold_right Qplus 0 l.

(** [np.mean(arr)]: the mean of an empty array is [nan] (with a warning,
    not an exception). *)
Definition np_mean (v : ndarray) : float :=
  match v with
  | [] => NaN
  | _ :: _ => Fin (Qsum v / inject_Z (Z.of_nat (length v)))
  end.

(** [series.apply(f).values] *)
Definition series_apply {A} (f : ndarray -> A) (s : series) : M (list A) :=
  fun w => Ok (map (fun e => f (deref (snd e) (heap w))) s, w).

(** ** The source functions *)

(** [_recursive_update_output]; [depth] is the number of Python stack
    frames still available, and a call made with none left raises
    [RecursionError]. *)
Fixpoint _recursive_update_output (depth : nat) (sim_series : series)
    (sim_arr : loc) (t tau next_checkpt checkpoint_freq : Q)
    : M (series * Q) :=
  match depth with
  | O => raise RecursionError
  | S depth' =>
      if Qltb next_checkpt (t + tau) then
        new <- singleton_series next_checkpt sim_arr ;;
        let sim_series := series_append sim_series new in
        let next_checkpt := next_checkpt + checkpoint_freq in
        _recursive_update_output depth' sim_series sim_arr t tau
                                 next_checkpt checkpoint_freq
      else ret (sim_series, next_checkpt)
  end.

(** The local variables of [one_state_simulation] that the loop updates. *)
Record locals : Type := Locals {
  sim_series : series;
  sim_arr : loc;
  next_checkpt : Q;
  t_now : Q
}.

Section Run.

Variable depth : nat.
Variables ksynth kdecay : Q.
Variables t_final checkpoint_freq : Q.

(** The body of the [while] loop. *)
Definition event_step (st : locals) : M locals :=
  n <- np_size (sim_arr st) ;;
  let decay_prob := inject_Z (Z.of_nat n) * kdecay in
  scale <- py_div 1 (ksynth + decay_prob) ;;
  tau <- np_random_exponential scale ;;
  '(sim_series', next_checkpt') <-
    _recursive_update_output depth (sim_series st) (sim_arr st)
      (t_now st) tau (next_checkpt st) checkpoint_freq ;;
  sim_arr1 <- np_add (sim_arr st) tau ;;
  p <- py_div ksynth (ksynth + decay_prob) ;;
  event <- np_random_binomial1 p ;;
  sim_arr2 <-
    (if (event =? 1)%Z then np_append sim_arr1 0
     else
       n1 <- np_size sim_arr1 ;;
       i <- np_random_randint0 n1 ;;
       np_delete sim_arr1 i) ;;
  ret (Locals sim_series' sim_arr2 next_checkpt' (t_now st + tau)).

(** [while next_checkpt < t_final: ...]; [fuel] bounds the number of
    iterations the model follows. *)
Fixpoint event_loop (fuel : nat) (st : locals) : M locals :=
  if Qltb (next_checkpt st) t_final then
    match fuel with
    | O => fun _ => Starved
    | S fuel' => st' <- event_step st ;; event_loop fuel' st'
    end
  else ret st.

End Run.

(** What [one_state_simulation] returns: a pair, or a triple when
    [return_sim] is set. *)
Inductive retval : Type :=
| Pair (ct_checkpoints : list nat) (age_checkpoints : list float)
| Triple (ct_checkpoints : list nat) (age_checkpoints : list float)
         (sim : series).

Definition ret_counts (r : retval) : list nat :=
  match r with Pair c _ => c | Triple c _ _ => c end.

Definition ret_ages (r : retval) : list float :=
  match r with Pair _ a => a | Triple _ a _ => a end.

(** Every iteration of the loop takes one exponential variate, so the
    loop is followed for one iteration more than there are variates: the
    model stops in the call of [np.random.exponential] that finds none. *)
Definition one_state_simulation (depth : nat) (ksynth kdecay : Q)
    (sim_arr : loc) (t_final checkpoint_freq : Q) (return_sim : bool)
    : M retval :=
  series0 <- singleton_series 0 sim_arr ;;
  let next_checkpt := checkpoint_freq in
  let t := 0 in
  fuel <- (fun w => Ok (S (length (expos w)), w)) ;;
  st <- event_loop depth ksynth kdecay t_final checkpoint_freq fuel
          (Locals series0 sim_arr next_checkpt t) ;;
  ct_checkpoints <- series_apply (@length Q) (sim_series st) ;;
  age_checkpoints <- series_apply np_mean (sim_series st) ;;
  if return_sim then
    ret (Triple ct_checkpoints age_checkpoints (sim_series st))
  else
    ret (Pair ct_checkpoints age_checkpoints).

(** The defaults of the signature.  [np.empty(shape=(1,))] is an array of
    one element whose value is whatever the memory held.  Python builds it
    once, when the function is defined; no call writes to it, so the model
    allocates it at the call. *)
Definition np_empty (shape : nat) (uninit : nat -> Q) : M loc :=
  alloc (map uninit (seq 0 shape)).

Definition default_t_final : Q := 240.
Definition default_checkpoint_freq : Q := 1.
Definition default_return_sim : bool := false.

(** A call that leaves [sim_arr] out. *)
Definition one_state_simulation_default_arr (uninit : nat -> Q)
    (depth : nat) (ksynth kdecay : Q) (t_final checkpoint_freq : Q)
    (return_sim : bool) : M retval :=
  sim_arr <- np_empty 1 uninit ;;
  one_state_simulation depth ksynth kdecay sim_arr t_final checkpoint_freq
                       return_sim.

Definition times (s : series) : list Q := map fst s.
Definition snapshots (s : series) (w : world) : list ndarray :=
  map (fun e => deref (snd e) (heap w)) s.

(** ** Predicates on stores, locals and checkpoint times *)

(** The store only grew from [h] to [h']: every object of [h] is in [h']
    with the contents it had. *)
Definition extends (h h' : list ndarray) : Prop := exists ext, h' = h ++ ext.

Definition valid (a : loc) (h : list ndarray) : Prop := (a < length h)%nat.

(** The uniform variates are below 1, as draws from [0,1) are. *)
Definition unifs_ok (w : world) : Prop :=
  Forall (fun u => u < 1) (unifs w).

(** The references held by the locals point into the store, and no
    recorded snapshot is the object of the live state. *)
Definition wf_locals (st : locals) (h : list ndarray) : Prop :=
  valid (sim_arr st) h /\
  Forall (fun e => valid (snd e) h /\ snd e <> sim_arr st) (sim_series st).

(** The snapshots [new] were allocated between [h] and [h'] and hold, in
    [h'], what the array [a] held in [h]. *)
Definition recorded (a : loc) (h h' : list ndarray) (new : series) : Prop :=
  Forall (fun e => (length h <= snd e)%nat /\ valid (snd e) h' /\
                   deref (snd e) h' = deref a h) new.

(** [ladder start f l stop]: [l] is [start, start + f, (start + f) + f, ...]
    as the source computes it, and [stop] is the value after the last. *)
Fixpoint ladder (start f : Q) (l : list Q) (stop : Q) : Prop :=
  match l with
  | [] => stop = start
  | x :: l' => x = start /\ ladder (start + f) f l' stop
  end.


(** How one event changes the state: every molecule ages by [tau], then a
    molecule of age 0 is added or the molecule at one position removed. *)
Definition evolved (tau : Q) (old new : ndarray) : Prop :=
  let aged := map (fun y => y + tau) old in
  new = aged ++ [0] \/
  exists i, (i < length aged)%nat /\ new = remove_at i aged.

(** What an iteration of the loop that returns has done. *)
Definition step_post (f : Q) (st : locals) (w : world)
    (st' : locals) (w' : world) : Prop :=
  exists tau new,
    sim_series st' = sim_series st ++ new /\
    ladder (next_checkpt st) f (times new) (next_checkpt st') /\
    (new <> [] -> 0 < f) /\
    Forall (fun x => x < t_now st + tau) (times new) /\
    t_now st + tau <= next_checkpt st' /\
    t_now st' = t_now st + tau /\
    extends (heap w) (heap w') /\
    recorded (sim_arr st) (heap w) (heap w') new /\
    wf_locals st' (heap w') /\
    (length (heap w) <= sim_arr st')%nat /\
    (unifs_ok w -> unifs_ok w') /\
    evolved tau (deref (sim_arr st) (heap w)) (deref (sim_arr st') (heap w')).

(** What an iteration of the loop can raise: with a positive synthesis
    rate, uniform variates below 1 and either a non-negative decay rate or
    no molecule, nothing but the exhaustion of the stack. *)
Definition step_exn (ksynth kdecay : Q) (st : locals) (w : world)
    (e : exn) : Prop :=
  0 < ksynth ->
  (0 <= kdecay \/ deref (sim_arr st) (heap w) = []) ->
  unifs_ok w ->
  e = RecursionError.

(** What the loop has done when it returns, and what it can raise. *)
Definition loop_post (t_final f : Q) (st : locals) (w : world)
    (st' : locals) (w' : world) : Prop :=
  exists new,
    sim_series st' = sim_series st ++ new /\
    ladder (next_checkpt st) f (times new) (next_checkpt st') /\
    (new <> [] -> 0 < f) /\
    t_final <= next_checkpt st' /\
    extends (heap w) (heap w') /\
    wf_locals st' (heap w').

Definition loop_exn (ksynth kdecay : Q) (w : world) (e : exn) : Prop :=
  0 < ksynth -> 0 <= kdecay -> unifs_ok w -> e = RecursionError.

(** What [one_state_simulation] returns, for the array [a] of the caller:
    the record starts with a copy of [a] at time 0, goes on with the
    checkpoints the loop recorded, and is summarised snapshot by snapshot. *)
Definition run_post (a : loc) (t_final f : Q) (return_sim : bool)
    (w : world) (r : retval) (w' : world) : Prop :=
  exists c0 new stop,
    let s := (0, c0) :: new in
    let cts := map (@length Q) (snapshots s w') in
    let ages := map np_mean (snapshots s w') in
    r = (if return_sim then Triple cts ages s else Pair cts ages) /\
    ladder f f (times new) stop /\
    (new <> [] -> 0 < f) /\
    t_final <= stop /\
    extends (heap w) (heap w') /\
    deref c0 (heap w') = deref a (heap w).

(** ** Predicates for the properties of rates, counts and ages *)

(** The standard exponential variates are non-negative, and so are the
    uniform ones. *)
Definition expos_ok (w : world) : Prop :=
  Forall (fun e => 0 <= e) (expos w).

Definition unifs_nonneg (w : world) : Prop :=
  Forall (fun u => 0 <= u) (unifs w).

(** [ksynth + decay_prob], the total event rate in a state. *)
Definition total_rate (ksynth kdecay : Q) (state : ndarray) : Q :=
  ksynth + inject_Z (Z.of_nat (length state)) * kdecay.

(** What the draws of an iteration that returns were and what they
    decided: the waiting time is the exponential variate [e] divided by the
    total rate, and the uniform variate [u] chooses a birth when it is
    below [ksynth / total rate] and a death otherwise. *)
Definition step_draws (ksynth kdecay : Q) (st : locals) (w : world)
    (st' : locals) (w' : world) : Prop :=
  let old := deref (sim_arr st) (heap w) in
  let d := total_rate ksynth kdecay old in
  exists e u,
    0 < d /\ 0 <= ksynth <= d /\
    expos w = e :: expos w' /\
    unifs w = u :: unifs w' /\
    t_now st' = t_now st + 1 / d * e /\
    let aged := map (fun y => y + 1 / d * e) old in
    (u < ksynth / d -> deref (sim_arr st') (heap w') = aged ++ [0]) /\
    (ksynth / d <= u ->
     exists i, (i < length aged)%nat /\
               deref (sim_arr st') (heap w') = remove_at i aged).

(** [neighbours R l]: every two neighbours of [l] are related by [R]. *)
Fixpoint neighbours {A} (R : A -> A -> Prop) (l : list A) : Prop :=
  match l with
  | a :: ((b :: _) as l') => R a b /\ neighbours R l'
  | _ => True
  end.

(** Every age of the array is between 0 and [hi]. *)
Definition ages_within (hi : Q) (v : ndarray) : Prop :=
  Forall (fun x => 0 <= x <= hi) v.

(** The locals the loop starts from, and the world it starts in, for a
    call on the array [a] made in [w]. *)
Definition initial_locals (a : loc) (checkpoint_freq : Q) (w : world)
    : locals :=
  Locals [(0, length (heap w))] a checkpoint_freq 0.

Definition initial_world (a : loc) (w : world) : world :=
  World (heap w ++ [deref a (heap w)]) (expos w) (unifs w) (picks w).

(** ** Example worlds *)

(** An empty array at reference 0 and two events: the first after half a
    minute, the second waiting time long enough to pass [t = 2]. *)
Definition overshoot_world : world :=
  World [[]] [1 # 2; 4] [0; 0] [].

(** Three molecules of age 0 at reference 0 and draws that remove them one
    after the other. *)
Definition decay_world : world :=
  World [[0; 0; 0]] [1; 1; 1] [1 # 2; 1 # 2; 1 # 2] [0%nat; 0%nat; 0%nat].

(** Two molecules at reference 0, their t=0 snapshot at reference 1, and an
    event whose waiting time passes three checkpoints. *)
Definition long_wait_world : world :=
  World [[3; 4]; [3; 4]] [10] [9 # 10] [1%nat].

Definition long_wait_locals : locals := Locals [(0, 1%nat)] 0%nat 1 0.

(** No molecule at reference 0, its snapshot at reference 1, one event. *)
Definition empty_world : world := World [[]; []] [1 # 2] [9 # 10] [1%nat].

(** No array yet and one event whose waiting time covers the whole default
    horizon of 240 minutes. *)
Definition long_run_world : world := World [] [500] [9 # 10] [0%nat].

(** An empty array at reference 0 and one event whose waiting time is a
    hundred minutes. *)
Definition far_world : world := World [[]] [100] [0] [].

(** ** A weakest-precondition calculus for [M] *)

(** [wp m P E w]: run from [w], [m] returns only results satisfying [P]
    and raises only exceptions satisfying [E]. *)
Definition wp {A} (m : M A) (P : A -> world -> Prop) (E : exn -> Prop)
    (w : world) : Prop :=
  match m w with
  | Ok (a, w') => P a w'
  | Raise e => E e
  | Starved => True
  end.

(** Splits a goal into its conjuncts. *)
Ltac conjuncts := repeat match goal with |- _ /\ _ => split end.

Lemma wp_ret {A} (a : A) P E w : P a w -> wp (ret a) P E w.
Proof. exact (fun H => H). Qed.

Lemma wp_raise {A} e (P : A -> world -> Prop) (E : exn -> Prop) w :
  E e -> wp (raise e) P E w.
Proof. exact (fun H => H). Qed.

Lemma wp_bind {A B} (m : M A) (k : A -> M B) P E w :
  wp m (fun a w' => wp (k a) P E w') E w -> wp (bind m k) P E w.
Proof.
  unfold wp, bind. destruct (m w) as [[a w']|e|]; auto.
Qed.

Lemma wp_mono {A} (m : M A) (P P' : A -> world -> Prop)
    (E E' : exn -> Prop) w :
  (forall a w', P a w' -> P' a w') -> (forall e, E e -> E' e) ->
  wp m P E w -> wp m P' E' w.
Proof.
  unfold wp. intros HP HE. destruct (m w) as [[a w']|e|]; auto.
Qed.

Lemma wp_ok {A} (m : M A) P E w a w' :
  wp m P E w -> m w = Ok (a, w') -> P a w'.
Proof. unfold wp. intros H Hm. now rewrite Hm in H. Qed.

Lemma wp_exn {A} (m : M A) P E w e :
  wp m P E w -> m w = Raise e -> E e.
Proof. unfold wp. intros H Hm. now rewrite Hm in H. Qed.

(** ** Facts about the store *)

Lemma extends_refl h : extends h h.
Proof. exists []. now rewrite app_nil_r. Qed.

Lemma extends_trans h1 h2 h3 :
  extends h1 h2 -> extends h2 h3 -> extends h1 h3.
Proof.
  intros [e1 H1] [e2 H2]. exists (e1 ++ e2).
  now rewrite H2, H1, app_assoc.
Qed.

Lemma extends_new h (v : ndarray) : extends h (h ++ [v]).
Proof. now exists [v]. Qed.

Lemma extends_length h h' : extends h h' -> (length h <= length h')%nat.
Proof. intros [e H]. rewrite H, length_app. lia. Qed.

Lemma valid_extends a h h' : extends h h' -> valid a h -> valid a h'.
Proof. unfold valid. intros H Ha. apply extends_length in H. lia. Qed.

Lemma deref_extends a h h' :
  extends h h' -> valid a h -> deref a h' = deref a h.
Proof.
  intros [e H] Ha. unfold deref. rewrite H. now apply app_nth1.
Qed.

Lemma deref_new v h : deref (length h) (h ++ [v]) = v.
Proof. unfold deref. rewrite app_nth2, Nat.sub_diag; auto. Qed.

Lemma valid_new (v : ndarray) h : valid (length h) (h ++ [v]).
Proof. unfold valid. rewrite length_app. simpl. lia. Qed.

Lemma recorded_extends a h h1 h2 new :
  recorded a h h1 new -> extends h1 h2 -> recorded a h h2 new.
Proof.
  intros Hrec Hext. eapply Forall_impl; [|exact Hrec].
  intros e (H1 & H2 & H3). split; [|split]; auto.
  - eapply valid_extends; eauto.
  - rewrite <- H3. now apply deref_extends.
Qed.

Lemma Qltb_true x y : Qltb x y = true <-> x < y.
Proof.
  unfold Qltb. rewrite negb_true_iff, <- not_true_iff_false, Qle_bool_iff.
  split; [apply Qnot_le_lt | apply Qlt_not_le].
Qed.

Lemma Qltb_false x y : Qltb x y = false <-> y <= x.
Proof.
  unfold Qltb. rewrite negb_false_iff. apply Qle_bool_iff.
Qed.

(** ** Rules for the primitives *)

(** Allocation returns a new object, leaves every other one alone and
    draws nothing. *)
Lemma wp_alloc v (P : loc -> world -> Prop) E w :
  (forall w', heap w' = heap w ++ [v] -> expos w' = expos w ->
              unifs w' = unifs w -> picks w' = picks w ->
              P (length (heap w)) w') ->
  wp (alloc v) P E w.
Proof. intros H. unfold wp, alloc. now apply H. Qed.

Lemma wp_np_copy a (P : loc -> world -> Prop) E w :
  (forall w', heap w' = heap w ++ [deref a (heap w)] ->
              expos w' = expos w -> unifs w' = unifs w ->
              picks w' = picks w -> P (length (heap w)) w') ->
  wp (np_copy a) P E w.
Proof. intros H. exact (wp_alloc _ P E w H). Qed.

Lemma wp_np_add a x (P : loc -> world -> Prop) E w :
  (forall w',
      heap w' = heap w ++ [map (fun y => y + x) (deref a (heap w))] ->
      expos w' = expos w -> unifs w' = unifs w ->
      picks w' = picks w -> P (length (heap w)) w') ->
  wp (np_add a x) P E w.
Proof. intros H. exact (wp_alloc _ P E w H). Qed.

Lemma wp_np_append a x (P : loc -> world -> Prop) E w :
  (forall w', heap w' = heap w ++ [deref a (heap w) ++ [x]] ->
              expos w' = expos w -> unifs w' = unifs w ->
              picks w' = picks w -> P (length (heap w)) w') ->
  wp (np_append a x) P E w.
Proof. intros H. exact (wp_alloc _ P E w H). Qed.

Lemma wp_np_delete a i (P : loc -> world -> Prop) E w :
  (forall w', heap w' = heap w ++ [remove_at i (deref a (heap w))] ->
              expos w' = expos w -> unifs w' = unifs w ->
              picks w' = picks w -> P (length (heap w)) w') ->
  wp (np_delete a i) P E w.
Proof. intros H. exact (wp_alloc _ P E w H). Qed.

Lemma wp_np_size a (P : nat -> world -> Prop) E w :
  P (length (deref a (heap w))) w -> wp (np_size a) P E w.
Proof. exact (fun H => H). Qed.

Lemma wp_py_div a b (P : Q -> world -> Prop) (E : exn -> Prop) w :
  (b == 0 -> E ZeroDivisionError) -> (~ b == 0 -> P (a / b) w) ->
  wp (py_div a b) P E w.
Proof.
  intros HE HP. unfold py_div.
  destruct (Qeq_bool b 0) eqn:Hb.
  - apply wp_raise, HE. now apply Qeq_bool_iff.
  - apply wp_ret, HP. intros H. apply Qeq_bool_iff in H. congruence.
Qed.

Lemma wp_np_random_exponential scale (P : Q -> world -> Prop)
    (E : exn -> Prop) w :
  (scale < 0 -> E ValueError) ->
  (0 <= scale -> forall e w', expos w = e :: expos w' ->
     heap w' = heap w -> unifs w' = unifs w -> picks w' = picks w ->
     P (scale * e) w') ->
  wp (np_random_exponential scale) P E w.
Proof.
  intros HE HP. unfold np_random_exponential.
  destruct (Qltb scale 0) eqn:Hs.
  - apply wp_raise, HE. now apply Qltb_true.
  - apply Qltb_false in Hs. unfold wp.
    destruct (expos w) as [|e es] eqn:He; [exact I|].
    apply HP; auto.
Qed.

Lemma wp_np_random_binomial1 p (P : Z -> world -> Prop)
    (E : exn -> Prop) w :
  (p < 0 \/ 1 < p -> E ValueError) ->
  (0 <= p <= 1 -> forall u w', unifs w = u :: unifs w' ->
     heap w' = heap w -> expos w' = expos w -> picks w' = picks w ->
     P (if Qltb u p then 1%Z else 0%Z) w') ->
  wp (np_random_binomial1 p) P E w.
Proof.
  intros HE HP. unfold np_random_binomial1.
  destruct (Qltb p 0 || Qltb 1 p) eqn:Hp.
  - apply wp_raise, HE. apply orb_true_iff in Hp.
    destruct Hp as [Hp|Hp]; apply Qltb_true in Hp; auto.
  - apply orb_false_iff in Hp. destruct Hp as [H0 H1].
    apply Qltb_false in H0, H1. unfold wp.
    destruct (unifs w) as [|u us] eqn:Hu; [exact I|].
    apply HP; auto.
Qed.

Lemma wp_np_random_randint0 high (P : nat -> world -> Prop)
    (E : exn -> Prop) w :
  (high = 0%nat -> E ValueError) ->
  (forall i w', (i < high)%nat -> heap w' = heap w ->
     expos w' = expos w -> unifs w' = unifs w -> P i w') ->
  wp (np_random_randint0 high) P E w.
Proof.
  intros HE HP. unfold np_random_randint0.
  destruct high as [|h].
  - now apply wp_raise, HE.
  - unfold wp. destruct (picks w) as [|r rs] eqn:Hr; [exact I|].
    apply HP; auto. apply Nat.mod_upper_bound. discriminate.
Qed.

(** ** The checkpoint recorder *)

Lemma ladder_app a f l1 b l2 c :
  ladder a f l1 b -> ladder b f l2 c -> ladder a f (l1 ++ l2) c.
Proof.
  revert a. induction l1 as [|x l1 IH]; simpl; intros a H1 H2.
  - now subst b.
  - destruct H1 as [-> H1]. split; auto.
Qed.

Lemma ladder_down a f l b : f <= 0 -> ladder a f l b -> b <= a.
Proof.
  intros Hf. revert a. induction l as [|x l IH]; simpl; intros a H.
  - subst b. apply Qle_refl.
  - destruct H as [_ H]. apply IH in H. lra.
Qed.

Lemma times_app s1 s2 : times (s1 ++ s2) = times s1 ++ times s2.
Proof. apply map_app. Qed.

(** What one call of the recorder does: it appends the checkpoints
    [next_checkpt, next_checkpt + checkpoint_freq, ...] that lie strictly
    below [t + tau], each with a new copy of [sim_arr], draws nothing, and
    returns the first one that is not below [t + tau]. *)
Lemma recorder_spec depth : forall s a t tau next f w,
  valid a (heap w) ->
  wp (_recursive_update_output depth s a t tau next f)
     (fun r w' =>
        exists new,
          fst r = s ++ new /\
          ladder next f (times new) (snd r) /\
          (new <> [] -> 0 < f) /\
          Forall (fun x => x < t + tau) (times new) /\
          t + tau <= snd r /\
          extends (heap w) (heap w') /\
          unifs w' = unifs w /\
          recorded a (heap w) (heap w') new)
     (fun e => e = RecursionError) w.
Proof.
  induction depth as [|depth IH]; intros s a t tau next f w Ha.
  - reflexivity.
  - simpl. destruct (Qltb next (t + tau)) eqn:Hlt.
    + apply Qltb_true in Hlt.
      apply wp_bind. unfold singleton_series.
      apply wp_bind, wp_np_copy. intros w1 Hheap _ Hun _.
      apply wp_ret.
      assert (Hext : extends (heap w) (heap w1))
        by (rewrite Hheap; apply extends_new).
      assert (Ha1 : valid a (heap w1)) by (eapply valid_extends; eauto).
      eapply wp_mono; [| |apply (IH _ a t tau (next + f) f w1 Ha1)];
        [|auto].
      intros [s' n'] w'. simpl.
      intros (new & Hs & Hl & Hf & Hlts & Hge & Hext' & Hun' & Hrec).
      exists ((next, length (heap w)) :: new). simpl.
      conjuncts.
      * unfold series_append in Hs. now rewrite Hs, <- app_assoc.
      * reflexivity.
      * exact Hl.
      * intros _. destruct (Qlt_le_dec 0 f) as [|Hf0]; auto.
        exfalso. apply (ladder_down _ _ _ _ Hf0) in Hl. lra.
      * constructor; auto.
      * exact Hge.
      * eapply extends_trans; eauto.
      * congruence.
      * constructor; simpl.
        -- split; [lia|]. split.
           ++ eapply valid_extends; eauto. rewrite Hheap. apply valid_new.
           ++ rewrite (deref_extends _ (heap w1) (heap w')); auto.
              ** rewrite Hheap. apply deref_new.
              ** rewrite Hheap. apply valid_new.
        -- eapply Forall_impl; [|exact Hrec].
           intros e (He1 & He2 & He3). split; [|split]; auto.
           ++ apply extends_length in Hext. lia.
           ++ rewrite He3. now apply deref_extends.
    + apply Qltb_false in Hlt. apply wp_ret. exists []. simpl.
      rewrite app_nil_r.
      conjuncts; auto.
      * congruence.
      * apply extends_refl.
      * constructor.
Qed.


(** ** One iteration of the loop *)

Lemma rate_pos ksynth kdecay n :
  0 < ksynth -> (0 <= kdecay \/ n = 0%nat) ->
  ksynth <= ksynth + inject_Z (Z.of_nat n) * kdecay /\
  (n = 0%nat -> ksynth + inject_Z (Z.of_nat n) * kdecay == ksynth).
Proof.
  intros Hk Hm. split.
  - destruct Hm as [Hd| ->].
    + assert (0 <= inject_Z (Z.of_nat n)).
      { unfold Qle. simpl. lia. }
      assert (0 <= inject_Z (Z.of_nat n) * kdecay)
        by now apply Qmult_le_0_compat.
      lra.
    + change (inject_Z (Z.of_nat 0)) with 0. lra.
  - intros ->. change (inject_Z (Z.of_nat 0)) with 0. lra.
Qed.

Lemma scale_nonneg d : 0 < d -> ~ 1 / d < 0.
Proof.
  intros Hd H. apply Qinv_lt_0_compat in Hd.
  unfold Qdiv in H. rewrite Qmult_1_l in H. lra.
Qed.

Lemma prob_bounds ksynth d :
  0 < ksynth -> ksynth <= d -> 0 < ksynth / d <= 1.
Proof.
  intros Hk Hd. split.
  - apply Qlt_shift_div_l; lra.
  - apply Qle_shift_div_r; lra.
Qed.

Lemma prob_one ksynth d : 0 < ksynth -> d == ksynth -> 1 <= ksynth / d.
Proof.
  intros Hk Hd. apply Qle_shift_div_l; lra.
Qed.

(** The store after the two or three allocations of an iteration. *)
Lemma step_store st h h2 new tau v nx tn :
  wf_locals st h -> extends h h2 -> recorded (sim_arr st) h h2 new ->
  let aged := map (fun y => y + tau) (deref (sim_arr st) h) in
  let h' := (h2 ++ [aged]) ++ [v] in
  let st' := Locals (sim_series st ++ new) (S (length h2)) nx tn in
  extends h h' /\ recorded (sim_arr st) h h' new /\ wf_locals st' h' /\
  (length h <= S (length h2))%nat /\ deref (S (length h2)) h' = v /\
  deref (length h2) (h2 ++ [aged]) = aged.
Proof.
  intros [Ha Hs] Hext Hrec aged h' st'.
  assert (Hext2 : extends h2 h').
  { eapply extends_trans; apply extends_new. }
  assert (Hlen : length (h2 ++ [aged]) = S (length h2)).
  { rewrite length_app. simpl. lia. }
  pose proof (extends_length _ _ Hext) as Hle.
  conjuncts.
  - eapply extends_trans; eauto.
  - eapply recorded_extends; eauto.
  - split; simpl.
    + unfold h'. rewrite <- Hlen. apply valid_new.
    + apply Forall_app. split.
      * eapply Forall_impl; [|exact Hs]. intros e [He1 He2]. split.
        -- eapply valid_extends; [|exact He1].
           eapply extends_trans; eauto.
        -- unfold valid in He1. lia.
      * eapply Forall_impl; [|exact Hrec]. intros e (He1 & He2 & He3).
        split.
        -- eapply valid_extends; eauto.
        -- unfold valid in He2. simpl. lia.
  - lia.
  - unfold h'. rewrite <- Hlen. apply deref_new.
  - apply deref_new.
Qed.

Lemma unifs_ok_eq w w' : unifs w' = unifs w -> unifs_ok w -> unifs_ok w'.
Proof. unfold unifs_ok. now intros ->. Qed.

Lemma unifs_ok_tail w w' u :
  unifs w = u :: unifs w' -> unifs_ok w -> u < 1 /\ unifs_ok w'.
Proof.
  unfold unifs_ok. intros -> H. inversion H; subst. now split.
Qed.

(** The specification of the loop body. *)
Lemma event_step_spec depth ksynth kdecay f st w :
  wf_locals st (heap w) ->
  wp (event_step depth ksynth kdecay f st)
     (step_post f st w) (step_exn ksynth kdecay st w) w.
Proof.
  intros Hwf. pose proof Hwf as [Hva _].
  unfold event_step.
  apply wp_bind, wp_np_size.
  set (old := deref (sim_arr st) (heap w)).
  set (d := ksynth + inject_Z (Z.of_nat (length old)) * kdecay).
  assert (Hrate : 0 < ksynth ->
                  (0 <= kdecay \/ deref (sim_arr st) (heap w) = []) ->
                  ksynth <= d /\ (length old = 0%nat -> d == ksynth)).
  { intros Hk Hm. apply rate_pos; auto.
    destruct Hm as [Hm|Hm]; auto. right. fold old in Hm. now rewrite Hm. }
  apply wp_bind, wp_py_div.
  { intros Hd Hk Hm _. exfalso. destruct (Hrate Hk Hm). lra. }
  intros _. apply wp_bind, wp_np_random_exponential.
  { intros Hs Hk Hm _. exfalso. destruct (Hrate Hk Hm).
    apply (scale_nonneg d); auto. lra. }
  intros _ e w1 _ Hh1 Hu1 _.
  set (tau := 1 / d * e).
  apply wp_bind.
  assert (Hva1 : valid (sim_arr st) (heap w1)) by now rewrite Hh1.
  eapply wp_mono;
    [| |apply (recorder_spec depth (sim_series st) (sim_arr st) (t_now st)
                 tau (next_checkpt st) f w1 Hva1)].
  2:{ intros e0 -> _ _ _. reflexivity. }
  intros [s' n'] w2. simpl fst. simpl snd.
  intros (new & Hs & Hl & Hf & Hlts & Hge & Hext & Hu2 & Hrec).
  subst s'. rewrite Hh1 in Hext, Hrec.
  apply wp_bind, wp_np_add. intros w3 Hh3 _ Hu3 _.
  rewrite (deref_extends _ _ _ Hext Hva) in Hh3. fold old in Hh3.
  apply wp_bind, wp_py_div.
  { intros Hd Hk Hm _. exfalso. destruct (Hrate Hk Hm). lra. }
  intros _. apply wp_bind, wp_np_random_binomial1.
  { intros Hp Hk Hm _. exfalso. destruct (Hrate Hk Hm) as [Hd _].
    pose proof (prob_bounds ksynth d Hk Hd). lra. }
  intros _ u w4 Hu4 Hh4 _ _.
  assert (Hun : unifs_ok w -> u < 1 /\ unifs_ok w4).
  { intros H. apply (unifs_ok_tail w3); auto.
    apply (unifs_ok_eq w); auto. congruence. }
  apply wp_bind.
  destruct (Qltb u (ksynth / d)) eqn:Hup.
  - (* a molecule is added *)
    change ((1 =? 1)%Z) with true. cbv iota.
    apply wp_np_append. intros w5 Hh5 _ Hu5 _. apply wp_ret.
    rewrite Hh4, Hh3 in Hh5.
    destruct (step_store st (heap w) (heap w2) new tau
                (map (fun y => y + tau) old ++ [0]) n' (t_now st + tau)
                Hwf Hext Hrec) as (S1 & S2 & S3 & S4 & S5 & S6).
    fold old in S5, S6. rewrite S6 in Hh5.
    rewrite Hh4, Hh3, length_app. simpl length.
    replace (length (heap w2) + 1)%nat with (S (length (heap w2))) by lia.
    exists tau, new. simpl. rewrite Hh5.
    conjuncts; auto.
    + intros H. apply (unifs_ok_eq w4); auto. now apply Hun.
    + fold old. rewrite S5. now left.
  - (* a molecule is removed *)
    change ((0 =? 1)%Z) with false. cbv iota.
    apply wp_bind, wp_np_size.
    apply wp_bind, wp_np_random_randint0.
    { intros Hn Hk Hm Hok. exfalso.
      rewrite Hh4, Hh3, deref_new, length_map in Hn.
      destruct (Hrate Hk Hm) as [_ Hd]. specialize (Hd Hn).
      pose proof (prob_one ksynth d Hk Hd).
      apply Qltb_false in Hup. destruct (Hun Hok). lra. }
    intros i w5 Hi Hh5 _ Hu5.
    apply wp_np_delete. intros w6 Hh6 _ Hu6 _. apply wp_ret.
    rewrite Hh4, Hh3, deref_new in Hi.
    rewrite Hh5, Hh4, Hh3 in Hh6.
    destruct (step_store st (heap w) (heap w2) new tau
                (remove_at i (map (fun y => y + tau) old)) n'
                (t_now st + tau) Hwf Hext Hrec)
      as (S1 & S2 & S3 & S4 & S5 & S6).
    fold old in S5, S6. rewrite S6 in Hh6.
    rewrite Hh5, Hh4, Hh3, length_app. simpl length.
    replace (length (heap w2) + 1)%nat with (S (length (heap w2))) by lia.
    exists tau, new. simpl. rewrite Hh6.
    conjuncts; auto.
    + intros H. apply (unifs_ok_eq w4); [congruence|]. now apply Hun.
    + fold old. rewrite S5. right. exists i. now split.
Qed.

(** ** The loop and the whole call *)

Lemma event_loop_spec depth ksynth kdecay t_final f fuel :
  forall st w,
    wf_locals st (heap w) ->
    wp (event_loop depth ksynth kdecay t_final f fuel st)
       (fun st' w' => loop_post t_final f st w st' w' /\
                      (unifs_ok w -> unifs_ok w'))
       (loop_exn ksynth kdecay w) w.
Proof.
  induction fuel as [|fuel IH]; intros st w Hwf; simpl;
    destruct (Qltb (next_checkpt st) t_final) eqn:Hlt.
  - exact I.
  - apply Qltb_false in Hlt. apply wp_ret. split; auto.
    exists []. rewrite app_nil_r. simpl.
    repeat split; auto; try apply Hwf. congruence. apply extends_refl.
  - apply wp_bind.
    eapply wp_mono; [| |apply event_step_spec; exact Hwf].
    + intros st1 w1
        (tau & new & Hs & Hl & Hf & _ & _ & _ & Hext & _ & Hwf1 & _ & Hu & _).
      eapply wp_mono; [| |apply IH; exact Hwf1].
      * intros st' w' [(new' & Hs' & Hl' & Hf' & Hge & Hext' & Hwf') Hu'].
        split; auto. exists (new ++ new').
        conjuncts; auto.
        -- now rewrite Hs', Hs, app_assoc.
        -- rewrite times_app. eapply ladder_app; eauto.
        -- intros Hne. destruct new; [destruct new'|].
           ++ now elim Hne.
           ++ apply Hf'. discriminate.
           ++ apply Hf. discriminate.
        -- eapply extends_trans; eauto.
      * intros e He Hk Hd Hok. apply He; auto.
    + intros e He Hk Hd Hok. apply He; auto.
  - apply Qltb_false in Hlt. apply wp_ret. split; auto.
    exists []. rewrite app_nil_r. simpl.
    repeat split; auto; try apply Hwf. congruence. apply extends_refl.
Qed.

Lemma wp_series_apply {A} (f : list Q -> A) s (P : list A -> world -> Prop)
    E w :
  P (map f (snapshots s w)) w -> wp (series_apply f s) P E w.
Proof.
  unfold wp, series_apply, snapshots. now rewrite map_map.
Qed.

Lemma one_state_simulation_spec depth ksynth kdecay a t_final f return_sim w :
  valid a (heap w) ->
  wp (one_state_simulation depth ksynth kdecay a t_final f return_sim)
     (run_post a t_final f return_sim w) (loop_exn ksynth kdecay w) w.
Proof.
  intros Ha. unfold one_state_simulation.
  apply wp_bind. unfold singleton_series.
  apply wp_bind, wp_np_copy. intros w1 Hh1 _ Hu1 _. apply wp_ret.
  apply wp_bind. unfold wp at 1. cbv beta iota.
  assert (Hext : extends (heap w) (heap w1))
    by (rewrite Hh1; apply extends_new).
  assert (Hc0 : deref (length (heap w)) (heap w1) = deref a (heap w))
    by (rewrite Hh1; apply deref_new).
  assert (Hwf : wf_locals (Locals [(0, length (heap w))] a f 0) (heap w1)).
  { split; simpl.
    - eapply valid_extends; eauto.
    - constructor; [|constructor]. simpl. split.
      + rewrite Hh1. apply valid_new.
      + unfold valid in Ha. lia. }
  apply wp_bind.
  eapply wp_mono; [| |apply event_loop_spec; exact Hwf].
  - intros st w2 [(new & Hs & Hl & Hf & Hge & Hext2 & Hwf2) _].
    simpl in Hs, Hl.
    apply wp_bind, wp_series_apply. apply wp_bind, wp_series_apply.
    assert (Hc : deref (length (heap w)) (heap w2) = deref a (heap w)).
    { rewrite <- Hc0. apply deref_extends; auto.
      rewrite Hh1. apply valid_new. }
    assert (Hext' : extends (heap w) (heap w2))
      by (eapply extends_trans; eauto).
    destruct return_sim; apply wp_ret;
      exists (length (heap w)), new, (next_checkpt st);
      cbv zeta; rewrite Hs;
      conjuncts; auto.
  - intros e He Hk Hd Hok. apply He; auto.
    now apply (unifs_ok_eq w).
Qed.



(** ** Checkpoint times *)


(** ** Summaries *)



(** ** The caller's array *)

(** C10: a call that returns leaves the caller's array, and every other
    array that existed before the call, with the length and the elements
    it had. *)
Theorem caller_array_unchanged
    depth ksynth kdecay a t_final f return_sim w r w' :
  valid a (heap w) ->
  one_state_simulation depth ksynth kdecay a t_final f return_sim w
    = Ok (r, w') ->
  deref a (heap w') = deref a (heap w) /\
  forall b, valid b (heap w) -> deref b (heap w') = deref b (heap w).
Proof.
  intros Ha Hrun.
  pose proof (wp_ok _ _ _ _ _ _
                (one_state_simulation_spec depth ksynth kdecay a t_final f
                   return_sim w Ha) Hrun)
    as (c0 & new & stop & _ & _ & _ & _ & Hext & _).
  split; [|intros b Hb]; now apply deref_extends.
Qed.

(** ** The default initial state *)

(** C4: a call that leaves [sim_arr] out starts from the one-element array
    [np.empty(shape=(1,))]: whenever it returns, the count at time 0 is 1,
    not 0. *)
Theorem default_start_has_one_molecule
    uninit depth ksynth kdecay t_final f return_sim w r w' :
  one_state_simulation_default_arr uninit depth ksynth kdecay t_final f
    return_sim w = Ok (r, w') ->
  hd_error (ret_counts r) = Some 1%nat.
Proof.
  intros Hrun.
  refine (wp_ok _ (fun r _ => hd_error (ret_counts r) = Some 1%nat)
            (fun _ => True) w r w' _ Hrun).
  unfold one_state_simulation_default_arr, np_empty.
  apply wp_bind, wp_alloc. intros w1 Hh1 _ _ _.
  assert (Ha : valid (length (heap w)) (heap w1))
    by (rewrite Hh1; apply valid_new).
  eapply wp_mono; [| |apply one_state_simulation_spec; exact Ha]; [|auto].
  intros r0 w2 (c0 & new & stop & Hr & _ & _ & _ & _ & Hc0).
  cbv zeta in Hr. rewrite Hh1, deref_new in Hc0.
  assert (Hc : ret_counts r0
               = map (@length Q) (snapshots ((0, c0) :: new) w2))
    by (rewrite Hr; now destruct return_sim).
  rewrite Hc. simpl. now rewrite Hc0.
Qed.

(** ** Snapshots *)

(** C6: the checkpoints recorded in one iteration are the ones the event
    time has passed, however many they are, and each of them holds, after
    the iteration, the state that was current when [tau] was drawn, before
    it was aged and before the event was applied. *)
Theorem catch_up_snapshots_identical
    depth ksynth kdecay f st w st' w' :
  wf_locals st (heap w) ->
  event_step depth ksynth kdecay f st w = Ok (st', w') ->
  exists tau new,
    t_now st' = t_now st + tau /\
    sim_series st' = sim_series st ++ new /\
    ladder (next_checkpt st) f (times new) (next_checkpt st') /\
    Forall (fun x => x < t_now st + tau) (times new) /\
    t_now st + tau <= next_checkpt st' /\
    snapshots new w'
      = repeat (deref (sim_arr st) (heap w)) (length new) /\
    evolved tau (deref (sim_arr st) (heap w))
                (deref (sim_arr st') (heap w')).
Proof.
  intros Hwf Hstep.
  pose proof (wp_ok _ _ _ _ _ _
                (event_step_spec depth ksynth kdecay f st w Hwf) Hstep)
    as (tau & new & Hs & Hl & _ & Hlts & Hge & Ht & _ & Hrec & _ & _ & _ & Hev).
  exists tau, new. conjuncts; auto.
  clear - Hrec. induction Hrec as [|e new (_ & _ & He) _ IH]; simpl; auto.
  now rewrite He, IH.
Qed.

(** C8: a snapshot is a new object holding the contents of the live state
    at the moment it is recorded, and nothing the rest of the run does
    changes a recorded snapshot: the record only grows, its entries keep
    their contents, and none of them is the object of the live state. *)
Theorem snapshots_never_change depth ksynth kdecay t_final f st w :
  wf_locals st (heap w) ->
  (forall st1 w1,
      event_step depth ksynth kdecay f st w = Ok (st1, w1) ->
      exists new,
        sim_series st1 = sim_series st ++ new /\
        Forall (fun e => ~ valid (snd e) (heap w) /\
                         snd e <> sim_arr st /\ snd e <> sim_arr st1 /\
                         deref (snd e) (heap w1)
                           = deref (sim_arr st) (heap w)) new) /\
  (forall fuel st' w',
      event_loop depth ksynth kdecay t_final f fuel st w = Ok (st', w') ->
      (exists new, sim_series st' = sim_series st ++ new) /\
      Forall (fun e => deref (snd e) (heap w') = deref (snd e) (heap w))
             (sim_series st) /\
      Forall (fun e => snd e <> sim_arr st') (sim_series st')).
Proof.
  intros Hwf. split.
  - intros st1 w1 Hstep.
    pose proof (wp_ok _ _ _ _ _ _
                  (event_step_spec depth ksynth kdecay f st w Hwf) Hstep)
      as (tau & new & Hs & _ & _ & _ & _ & _ & _ & Hrec & Hwf1 & _).
    exists new. split; auto.
    destruct Hwf as [Ha _]. destruct Hwf1 as [_ Hwf1].
    rewrite Hs in Hwf1. apply Forall_app in Hwf1. destruct Hwf1 as [_ Hn].
    unfold recorded in Hrec. rewrite Forall_forall in *.
    intros e He. destruct (Hrec e He) as (H1 & _ & H3).
    destruct (Hn e He) as [_ H4]. unfold valid in *.
    repeat split; auto; lia.
  - intros fuel st' w' Hloop.
    pose proof (wp_ok _ _ _ _ _ _
                  (event_loop_spec depth ksynth kdecay t_final f fuel st w
                     Hwf) Hloop)
      as [(new & Hs & _ & _ & _ & Hext & Hwf') _].
    split; [now exists new|split].
    + destruct Hwf as [_ Hold]. eapply Forall_impl; [|exact Hold].
      intros e [He _]. now apply deref_extends.
    + destruct Hwf' as [_ Hall]. eapply Forall_impl; [|exact Hall].
      now intros e [_ He].
Qed.

(** ** Event selection *)

(** C9: with a positive synthesis rate and no molecule the probability of
    a birth is 1, so an iteration never reaches [np.random.randint] on the
    empty array: it raises no [ValueError], and when it returns the state
    is the single molecule of age 0 that was born. *)
Theorem empty_state_always_birth depth ksynth kdecay f st w :
  0 < ksynth ->
  deref (sim_arr st) (heap w) = [] ->
  unifs_ok w ->
  wf_locals st (heap w) ->
  let p := ksynth / (ksynth + inject_Z (Z.of_nat 0) * kdecay) in
  p == 1 /\
  (forall event w1, np_random_binomial1 p w = Ok (event, w1) ->
                    event = 1%Z) /\
  event_step depth ksynth kdecay f st w <> Raise ValueError /\
  forall st' w',
    event_step depth ksynth kdecay f st w = Ok (st', w') ->
    deref (sim_arr st') (heap w') = [0].
Proof.
  intros Hk Hempty Hok Hwf p.
  pose proof (event_step_spec depth ksynth kdecay f st w Hwf) as Hspec.
  assert (Hp : p == 1).
  { unfold p. change (inject_Z (Z.of_nat 0)) with 0. field. lra. }
  conjuncts; [exact Hp| | |].
  - intros event w1. unfold np_random_binomial1.
    destruct (Qltb p 0 || Qltb 1 p); [discriminate|].
    destruct (unifs w) as [|u us] eqn:Hu; [discriminate|].
    intros H. injection H as <- _.
    unfold unifs_ok in Hok. rewrite Hu in Hok. inversion Hok; subst.
    replace (Qltb u p) with true; [reflexivity|].
    symmetry. apply Qltb_true. lra.
  - intros Hraise.
    pose proof (wp_exn _ _ _ _ _ Hspec Hraise Hk (or_intror Hempty) Hok).
    discriminate.
  - intros st' w' Hstep.
    pose proof (wp_ok _ _ _ _ _ _ Hspec Hstep)
      as (tau & new & _ & _ & _ & _ & _ & _ & _ & _ & _ & _ & _ & Hev).
    rewrite Hempty in Hev. destruct Hev as [Hev|(i & Hi & _)]; auto.
    simpl in Hi. lia.
Qed.

(** ** Degenerate and invalid parameters *)

Lemma event_step_zero_rate depth ksynth kdecay f st w :
  ksynth == 0 -> deref (sim_arr st) (heap w) = [] ->
  event_step depth ksynth kdecay f st w = Raise ZeroDivisionError.
Proof.
  intros Hk Hempty. unfold event_step, bind at 1, np_size.
  rewrite Hempty. change (inject_Z (Z.of_nat (length (@nil Q)))) with 0.
  unfold bind at 1, py_div.
  replace (Qeq_bool (ksynth + 0 * kdecay) 0) with true; [reflexivity|].
  symmetry. apply Qeq_bool_iff. lra.
Qed.

Lemma event_loop_done depth ksynth kdecay t_final f fuel st :
  t_final <= next_checkpt st ->
  event_loop depth ksynth kdecay t_final f fuel st = ret st.
Proof.
  intros H. apply Qltb_false in H. destruct fuel; simpl; now rewrite H.
Qed.

Lemma event_loop_zero_rate depth ksynth kdecay t_final f fuel st w :
  ksynth == 0 ->
  deref (sim_arr st) (heap w) = [] ->
  next_checkpt st < t_final ->
  event_loop depth ksynth kdecay t_final f (S fuel) st w
    = Raise ZeroDivisionError.
Proof.
  intros Hk Hempty Hlt. apply Qltb_true in Hlt.
  simpl. rewrite Hlt. unfold bind.
  now rewrite (event_step_zero_rate _ _ _ _ _ _ Hk Hempty).
Qed.

(** A call made with [ksynth = 0] on an empty array raises as soon as the
    loop is entered. *)
Lemma one_state_simulation_zero_rate
    depth ksynth kdecay a t_final f return_sim w :
  ksynth == 0 -> valid a (heap w) -> deref a (heap w) = [] ->
  f < t_final ->
  one_state_simulation depth ksynth kdecay a t_final f return_sim w
    = Raise ZeroDivisionError.
Proof.
  intros Hk Ha Hempty Hlt.
  unfold one_state_simulation, singleton_series, np_copy, alloc, bind, ret.
  rewrite event_loop_zero_rate; auto.
  simpl. transitivity (deref a (heap w)); [|exact Hempty].
  apply deref_extends; auto. apply extends_new.
Qed.


(** C3, as the code has it: no parameter is checked.  A call with
    [t_final <= checkpoint_freq] returns the t=0 checkpoint alone, whatever
    the other parameters are; and with [ksynth > 0], [kdecay >= 0] and
    uniform variates below 1 a call raises neither [ZeroDivisionError] nor
    [ValueError]: the one exception left is [RecursionError]. *)
Theorem no_parameter_validation
    depth ksynth kdecay a t_final f return_sim w :
  valid a (heap w) ->
  (t_final <= f ->
   exists r w',
     one_state_simulation depth ksynth kdecay a t_final f return_sim w
       = Ok (r, w') /\
     ret_counts r = [length (deref a (heap w))]) /\
  (0 < ksynth -> 0 <= kdecay -> unifs_ok w ->
   forall e,
     one_state_simulation depth ksynth kdecay a t_final f return_sim w
       = Raise e ->
     e = RecursionError).
Proof.
  intros Ha. split.
  - intros Hle.
    unfold one_state_simulation, singleton_series, np_copy, alloc, bind, ret.
    rewrite event_loop_done by exact Hle.
    unfold ret, series_apply. cbn [sim_series heap map snd].
    rewrite deref_new.
    destruct return_sim; eexists; eexists; split; reflexivity.
  - intros Hk Hd Hok e Hraise.
    exact (wp_exn _ _ _ _ _
             (one_state_simulation_spec depth ksynth kdecay a t_final f
                return_sim w Ha) Hraise Hk Hd Hok).
Qed.

(** C1: with valid parameters the record can hold a checkpoint at
    [t_final] itself.  Here [t_final = 2] and [checkpoint_freq = 1]: the
    second event takes the time from 1/2 to 5/2 and the recorder, which
    compares with [t + tau] only, records at 1 and at 2. *)
Theorem checkpoint_recorded_at_t_final :
  exists cts ages s w',
    one_state_simulation 1000 1 1 0%nat 2 1 true overshoot_world
      = Ok (Triple cts ages s, w') /\
    times s = [0; 1; 2] /\ cts = [0; 1; 1]%nat.
Proof.
  do 4 eexists. split; [vm_compute; reflexivity|]. split; reflexivity.
Qed.

(** ** The claims at concrete inputs *)

Lemma overshoot_valid : valid 0 (heap overshoot_world).
Proof. unfold valid. simpl. lia. Defined.

Lemma long_wait_wf : wf_locals long_wait_locals (heap long_wait_world).
Proof.
  split.
  - unfold valid. simpl. lia.
  - constructor; [|constructor]. simpl. split.
    + unfold valid. simpl. lia.
    + discriminate.
Defined.

Lemma empty_world_wf : wf_locals long_wait_locals (heap empty_world).
Proof.
  split.
  - unfold valid. simpl. lia.
  - constructor; [|constructor]. simpl. split.
    + unfold valid. simpl. lia.
    + discriminate.
Defined.

Lemma empty_world_unifs_ok : unifs_ok empty_world.
Proof. constructor; [reflexivity|constructor]. Defined.



Lemma caller_array_unchanged_witness :
  exists r w',
    one_state_simulation 1000 1 1 0%nat 2 1 false decay_world = Ok (r, w') /\
    deref 0 (heap w') = [0; 0; 0] /\
    forall b, valid b (heap decay_world) ->
              deref b (heap w') = deref b (heap decay_world).
Proof.
  do 2 eexists. split; [vm_compute; reflexivity|].
  eapply (caller_array_unchanged 1000 1 1 0%nat 2 1 false decay_world).
  - unfold valid. simpl. lia.
  - vm_compute. reflexivity.
Defined.

Lemma default_start_has_one_molecule_witness :
  exists r w',
    one_state_simulation_default_arr (fun _ => 7) 1000 1 1 default_t_final
      default_checkpoint_freq default_return_sim long_run_world
      = Ok (r, w') /\
    hd_error (ret_counts r) = Some 1%nat.
Proof.
  do 2 eexists. split; [vm_compute; reflexivity|].
  eapply (default_start_has_one_molecule (fun _ => 7) 1000 1 1
            default_t_final default_checkpoint_freq default_return_sim
            long_run_world).
  vm_compute. reflexivity.
Defined.

Lemma catch_up_snapshots_identical_witness :
  exists st' w',
    event_step 1000 1 1 1 long_wait_locals long_wait_world = Ok (st', w') /\
    length (sim_series st') = 4%nat /\
    exists tau new,
      t_now st' = 0 + tau /\
      sim_series st' = sim_series long_wait_locals ++ new /\
      ladder 1 1 (times new) (next_checkpt st') /\
      Forall (fun x => x < 0 + tau) (times new) /\
      0 + tau <= next_checkpt st' /\
      snapshots new w' = repeat [3; 4] (length new) /\
      evolved tau [3; 4] (deref (sim_arr st') (heap w')).
Proof.
  do 2 eexists. split; [vm_compute; reflexivity|]. split; [reflexivity|].
  eapply (catch_up_snapshots_identical 1000 1 1 1 long_wait_locals
            long_wait_world).
  - exact long_wait_wf.
  - vm_compute. reflexivity.
Defined.

Lemma snapshots_never_change_witness :
  wf_locals long_wait_locals (heap long_wait_world) /\
  (forall st1 w1,
      event_step 1000 1 1 1 long_wait_locals long_wait_world
        = Ok (st1, w1) ->
      exists new,
        sim_series st1 = sim_series long_wait_locals ++ new /\
        Forall (fun e => ~ valid (snd e) (heap long_wait_world) /\
                         snd e <> sim_arr long_wait_locals /\
                         snd e <> sim_arr st1 /\
                         deref (snd e) (heap w1)
                           = deref (sim_arr long_wait_locals)
                                   (heap long_wait_world)) new) /\
  (forall fuel st' w',
      event_loop 1000 1 1 3 1 fuel long_wait_locals long_wait_world
        = Ok (st', w') ->
      (exists new, sim_series st' = sim_series long_wait_locals ++ new) /\
      Forall (fun e => deref (snd e) (heap w')
                       = deref (snd e) (heap long_wait_world))
             (sim_series long_wait_locals) /\
      Forall (fun e => snd e <> sim_arr st') (sim_series st')).
Proof.
  split; [exact long_wait_wf|].
  exact (snapshots_never_change 1000 1 1 3 1 long_wait_locals
           long_wait_world long_wait_wf).
Defined.

Lemma empty_state_always_birth_witness :
  1 / (1 + inject_Z (Z.of_nat 0) * 1) == 1 /\
  (forall event w1,
      np_random_binomial1 (1 / (1 + inject_Z (Z.of_nat 0) * 1)) empty_world
        = Ok (event, w1) ->
      event = 1%Z) /\
  event_step 1000 1 1 1 long_wait_locals empty_world <> Raise ValueError /\
  forall st' w',
    event_step 1000 1 1 1 long_wait_locals empty_world = Ok (st', w') ->
    deref (sim_arr st') (heap w') = [0].
Proof.
  apply (empty_state_always_birth 1000 1 1 1 long_wait_locals empty_world).
  - reflexivity.
  - reflexivity.
  - exact empty_world_unifs_ok.
  - exact empty_world_wf.
Defined.


Lemma no_parameter_validation_witness :
  (exists r w',
      one_state_simulation 1000 1 1 0%nat 1 1 false overshoot_world
        = Ok (r, w') /\
      ret_counts r = [0%nat]) /\
  (forall e,
      one_state_simulation 1000 1 1 0%nat 1 1 false overshoot_world
        = Raise e ->
      e = RecursionError).
Proof.
  destruct (no_parameter_validation 1000 1 1 0%nat 1 1 false overshoot_world
              overshoot_valid) as [HA HB].
  split.
  - apply HA. discriminate.
  - apply HB.
    + reflexivity.
    + discriminate.
    + repeat constructor.
Defined.


(** C3 fails on the code: with all four parameters invalid
    ([ksynth = kdecay = t_final = checkpoint_freq = 0]) the call raises
    nothing and returns the t=0 checkpoint. *)
Lemma invalid_parameters_counterexample :
  exists w',
    one_state_simulation 1000 0 0 0%nat 0 0 false overshoot_world
      = Ok (Pair [0%nat] [NaN], w').
Proof. eexists. vm_compute. reflexivity. Qed.

(** ** Tools for the loop *)

(** The recorder draws nothing. *)
Lemma recorder_draws_nothing depth : forall s a t tau next f w r w',
  _recursive_update_output depth s a t tau next f w = Ok (r, w') ->
  expos w' = expos w /\ unifs w' = unifs w /\ picks w' = picks w.
Proof.
  induction depth as [|depth IH]; intros s a t tau next f w r w'; simpl.
  - discriminate.
  - destruct (Qltb next (t + tau)).
    + unfold bind at 1, singleton_series, bind, np_copy, alloc, ret.
      intros H. apply IH in H. exact H.
    + unfold ret. intros H. injection H as _ <-. auto.
Qed.

(** An invariant of the iterations holds when the loop returns, and the
    loop returns only with [next_checkpt] at or beyond [t_final]. *)
Lemma event_loop_invariant depth ksynth kdecay t_final f
    (I : locals -> world -> Prop) :
  (forall st w st1 w1,
      I st w -> next_checkpt st < t_final ->
      event_step depth ksynth kdecay f st w = Ok (st1, w1) -> I st1 w1) ->
  forall fuel st w st' w',
    I st w ->
    event_loop depth ksynth kdecay t_final f fuel st w = Ok (st', w') ->
    I st' w' /\ t_final <= next_checkpt st'.
Proof.
  intros Hstep.
  induction fuel as [|fuel IH]; intros st w st' w' HI; simpl;
    destruct (Qltb (next_checkpt st) t_final) eqn:Hlt;
    try discriminate;
    try (unfold ret; intros H; injection H as <- <-;
         apply Qltb_false in Hlt; now split).
  apply Qltb_true in Hlt. unfold bind.
  destruct (event_step depth ksynth kdecay f st w) as [[st1 w1]| |] eqn:He;
    try discriminate.
  apply IH. eapply Hstep; eauto.
Qed.

(** A call that returns has run the loop from the initial locals and has
    summarised the record the loop left. *)
Lemma one_state_simulation_inv
    depth ksynth kdecay a t_final f return_sim w r w' :
  one_state_simulation depth ksynth kdecay a t_final f return_sim w
    = Ok (r, w') ->
  exists st,
    event_loop depth ksynth kdecay t_final f (S (length (expos w)))
      (initial_locals a f w) (initial_world a w) = Ok (st, w') /\
    ret_counts r = map (@length Q) (snapshots (sim_series st) w') /\
    ret_ages r = map np_mean (snapshots (sim_series st) w') /\
    (return_sim = true ->
     r = Triple (ret_counts r) (ret_ages r) (sim_series st)).
Proof.
  unfold one_state_simulation, singleton_series, np_copy, alloc, bind, ret.
  fold (initial_world a w). fold (initial_locals a f w).
  cbn [expos initial_world].
  destruct (event_loop depth ksynth kdecay t_final f (S (length (expos w)))
              (initial_locals a f w) (initial_world a w))
    as [[st w2]| |]; try discriminate.
  unfold series_apply.
  destruct return_sim; intros H; injection H as <- <-;
    exists st; unfold snapshots; rewrite !map_map;
    conjuncts; auto; discriminate.
Qed.

Lemma initial_wf a f w :
  valid a (heap w) -> wf_locals (initial_locals a f w) (heap (initial_world a w)).
Proof.
  intros Ha. split; simpl.
  - eapply valid_extends; [apply extends_new|exact Ha].
  - constructor; [|constructor]. simpl. split.
    + apply valid_new.
    + unfold valid in Ha. lia.
Qed.

Lemma wp_bind_ok {A B} (m : M A) (k : A -> M B) P E w :
  (forall a w', m w = Ok (a, w') -> wp (k a) P E w') ->
  (forall e, m w = Raise e -> E e) ->
  wp (bind m k) P E w.
Proof.
  intros HP HE. unfold wp, bind.
  destruct (m w) as [[a w']|e|] eqn:Hm; auto.
  apply (HP a w' eq_refl).
Qed.

Lemma rate_of_scale d : ~ d == 0 -> 0 <= 1 / d -> 0 < d.
Proof.
  intros Hd Hs. destruct (Qlt_le_dec 0 d) as [|Hle]; auto. exfalso.
  assert (Hm : 1 / d * d == 1) by (field; exact Hd).
  assert (Hn : d < 0).
  { destruct (Qlt_le_dec d 0); auto. exfalso. apply Hd. lra. }
  nra.
Qed.

Lemma rate_of_prob ksynth d :
  0 < d -> 0 <= ksynth / d <= 1 -> 0 <= ksynth <= d.
Proof.
  intros Hd Hp.
  assert (Hm : ksynth / d * d == ksynth) by (field; lra).
  nra.
Qed.

(** The draws behind an iteration that returns. *)
Lemma event_step_draws depth ksynth kdecay f st w :
  valid (sim_arr st) (heap w) ->
  wp (event_step depth ksynth kdecay f st)
     (step_draws ksynth kdecay st w) (fun _ => True) w.
Proof.
  intros Hva. unfold event_step.
  apply wp_bind, wp_np_size.
  set (old := deref (sim_arr st) (heap w)).
  change (ksynth + inject_Z (Z.of_nat (length old)) * kdecay)
    with (total_rate ksynth kdecay old).
  set (d := total_rate ksynth kdecay old).
  apply wp_bind, wp_py_div; [auto|]. intros Hd.
  apply wp_bind, wp_np_random_exponential; [auto|].
  intros Hs e w1 He Hh1 Hu1 Hp1.
  pose proof (rate_of_scale d Hd Hs) as Hpos.
  set (tau := 1 / d * e).
  assert (Hva1 : valid (sim_arr st) (heap w1)) by now rewrite Hh1.
  apply wp_bind_ok; [|auto].
  intros [s' n'] w2 Hrec.
  destruct (recorder_draws_nothing _ _ _ _ _ _ _ _ _ _ Hrec)
    as (He2 & Hu2 & Hp2).
  pose proof (wp_ok _ _ _ _ _ _
                (recorder_spec depth (sim_series st) (sim_arr st)
                   (t_now st) tau (next_checkpt st) f w1 Hva1) Hrec)
    as (new & _ & _ & _ & _ & _ & Hext & _ & _).
  rewrite Hh1 in Hext.
  apply wp_bind, wp_np_add. intros w3 Hh3 He3 Hu3 Hp3.
  rewrite (deref_extends _ _ _ Hext Hva) in Hh3. fold old in Hh3.
  apply wp_bind, wp_py_div; [auto|]. intros _.
  apply wp_bind, wp_np_random_binomial1; [auto|].
  intros Hp u w4 Hu4 Hh4 He4 Hp4.
  pose proof (rate_of_prob ksynth d Hpos Hp) as Hk.
  assert (Hexp : forall w5, expos w5 = expos w4 -> expos w = e :: expos w5)
    by (intros w5 H5; congruence).
  assert (Hun : forall w5, unifs w5 = unifs w4 -> unifs w = u :: unifs w5)
    by (intros w5 H5; congruence).
  apply wp_bind.
  destruct (Qltb u (ksynth / d)) eqn:Hup.
  - change ((1 =? 1)%Z) with true. cbv iota.
    apply wp_np_append. intros w5 Hh5 He5 Hu5 _. apply wp_ret.
    rewrite Hh4, Hh3, deref_new in Hh5.
    exists e, u. cbn [t_now sim_arr]. fold old d tau.
    conjuncts; auto; try apply Hk.
    + intros _. rewrite Hh5, Hh4, <- Hh3. apply deref_new.
    + intros Hge. apply Qltb_true in Hup. lra.
  - change ((0 =? 1)%Z) with false. cbv iota.
    apply wp_bind, wp_np_size.
    apply wp_bind, wp_np_random_randint0; [auto|].
    intros i w5 Hi Hh5 He5 Hu5.
    apply wp_np_delete. intros w6 Hh6 He6 Hu6 _. apply wp_ret.
    rewrite Hh4, Hh3, deref_new in Hi.
    rewrite Hh5, Hh4, Hh3, deref_new in Hh6.
    exists e, u. cbn [t_now sim_arr]. fold old d tau.
    conjuncts; auto; try apply Hk.
    + apply Hexp. congruence.
    + apply Hun. congruence.
    + intros Hlt. apply Qltb_false in Hup. lra.
    + intros _. exists i. split; auto.
      rewrite Hh6, Hh5, Hh4, <- Hh3. apply deref_new.
Qed.

(** ** The depth of the recorder's recursion *)

Lemma recorder_overflow depth : forall s a t tau next f w,
  (forall k, (k < depth)%nat ->
             next + inject_Z (Z.of_nat k) * f < t + tau) ->
  _recursive_update_output depth s a t tau next f w = Raise RecursionError.
Proof.
  induction depth as [|depth IH]; intros s a t tau next f w Hk.
  - reflexivity.
  - cbn [_recursive_update_output].
    assert (Hlt : Qltb next (t + tau) = true).
    { apply Qltb_true. specialize (Hk 0%nat ltac:(lia)).
      change (inject_Z (Z.of_nat 0)) with 0 in Hk. lra. }
    rewrite Hlt.
    unfold bind at 1, singleton_series, bind, np_copy, alloc, ret.
    apply IH. intros k Hlk. specialize (Hk (S k) ltac:(lia)).
    rewrite Nat2Z.inj_succ, <- Z.add_1_r, inject_Z_plus in Hk.
    change (inject_Z 1) with 1 in Hk. lra.
Qed.

Lemma inject_nat_le (k n : nat) :
  (k <= n)%nat -> inject_Z (Z.of_nat k) <= inject_Z (Z.of_nat n).
Proof. intros H. rewrite <- Zle_Qle. lia. Qed.


(** X2: with [checkpoint_freq <= 0], a recorder call made for an event that
    passes [next_checkpt] never returns: whatever the depth of the stack,
    it raises [RecursionError]. *)
Theorem recorder_nonpositive_freq depth s a t tau next f w :
  f <= 0 -> next < t + tau ->
  _recursive_update_output depth s a t tau next f w = Raise RecursionError.
Proof.
  intros Hf Hlt. apply recorder_overflow. intros k _.
  assert (0 <= inject_Z (Z.of_nat k)) by (apply (inject_nat_le 0); lia).
  nra.
Qed.

(** The first three statements of the loop body, when the rate is
    positive and a variate is there. *)
Lemma event_step_until_recorder depth ksynth kdecay f st w e es :
  0 < total_rate ksynth kdecay (deref (sim_arr st) (heap w)) ->
  expos w = e :: es ->
  forall err,
    _recursive_update_output depth (sim_series st) (sim_arr st) (t_now st)
      (1 / total_rate ksynth kdecay (deref (sim_arr st) (heap w)) * e)
      (next_checkpt st) f (World (heap w) es (unifs w) (picks w))
      = Raise err ->
    event_step depth ksynth kdecay f st w = Raise err.
Proof.
  intros Hd He err Hrec.
  unfold event_step, bind at 1, np_size.
  fold (total_rate ksynth kdecay (deref (sim_arr st) (heap w))).
  set (d := total_rate ksynth kdecay (deref (sim_arr st) (heap w))) in *.
  unfold bind at 1, py_div.
  replace (Qeq_bool d 0) with false
    by (symmetry; apply not_true_iff_false; rewrite Qeq_bool_iff; lra).
  unfold ret. unfold bind at 1, np_random_exponential.
  replace (Qltb (1 / d) 0) with false.
  2:{ symmetry. apply Qltb_false. apply Qlt_le_weak.
      apply Qlt_shift_div_l; lra. }
  rewrite He. unfold bind at 1. now rewrite Hrec.
Qed.

(** X3: a call with [checkpoint_freq <= 0] below [t_final] raises
    [RecursionError] in its first iteration, as soon as the total rate is
    positive and the first waiting time is. *)
Theorem nonpositive_freq_raises
    depth ksynth kdecay a t_final f return_sim w e es :
  valid a (heap w) ->
  f <= 0 -> f < t_final ->
  0 < total_rate ksynth kdecay (deref a (heap w)) ->
  expos w = e :: es -> 0 < e ->
  one_state_simulation depth ksynth kdecay a t_final f return_sim w
    = Raise RecursionError.
Proof.
  intros Ha Hf Hlt Hd He Hpos.
  unfold one_state_simulation, singleton_series, np_copy, alloc, bind, ret.
  fold (initial_world a w). fold (initial_locals a f w).
  cbn [expos initial_world]. rewrite He. cbn [length event_loop].
  cbn [next_checkpt initial_locals].
  replace (Qltb f t_final) with true by (symmetry; now apply Qltb_true).
  unfold bind at 1.
  assert (Hderef : deref (sim_arr (initial_locals a f w))
                     (heap (initial_world a w)) = deref a (heap w)).
  { simpl. apply deref_extends; auto. apply extends_new. }
  rewrite (event_step_until_recorder depth ksynth kdecay f
             (initial_locals a f w) (initial_world a w) e es)
    with (err := RecursionError); auto.
  - now rewrite Hderef.
  - apply recorder_nonpositive_freq; auto.
    rewrite Hderef. cbn [next_checkpt t_now initial_locals].
    set (d := total_rate ksynth kdecay (deref a (heap w))) in *.
    assert (0 < 1 / d) by (apply Qlt_shift_div_l; lra).
    nra.
Qed.

(** ** The extent of the record *)



(** X5: the first checkpoint of a call that returns is the state the
    caller passed: the first count is the size of the caller's array and
    the first mean age is the mean of its elements. *)
Theorem first_checkpoint_is_initial_state
    depth ksynth kdecay a t_final f return_sim w r w' :
  valid a (heap w) ->
  one_state_simulation depth ksynth kdecay a t_final f return_sim w
    = Ok (r, w') ->
  hd_error (ret_counts r) = Some (length (deref a (heap w))) /\
  hd_error (ret_ages r) = Some (np_mean (deref a (heap w))).
Proof.
  intros Ha Hrun.
  pose proof (wp_ok _ _ _ _ _ _
                (one_state_simulation_spec depth ksynth kdecay a t_final f
                   return_sim w Ha) Hrun)
    as (c0 & new & stop & Hr & _ & _ & _ & _ & Hc0).
  cbv zeta in Hr. rewrite Hr.
  destruct return_sim; simpl; now rewrite Hc0.
Qed.

(** ** What an event does to the count *)

Lemma length_remove_at {A} : forall (l : list A) i,
  (i < length l)%nat -> S (length (remove_at i l)) = length l.
Proof.
  induction l as [|x l IH]; intros i Hi; simpl in *; [lia|].
  destruct i as [|i]; [reflexivity|].
  simpl. rewrite IH; auto. lia.
Qed.

(** X6: every event changes the number of molecules by exactly one: the
    state after an iteration that returns has one molecule more, or one
    molecule less, than the state before. *)
Theorem event_changes_count_by_one
    depth ksynth kdecay f st w st' w' :
  wf_locals st (heap w) ->
  event_step depth ksynth kdecay f st w = Ok (st', w') ->
  let n := length (deref (sim_arr st) (heap w)) in
  let n' := length (deref (sim_arr st') (heap w')) in
  n' = S n \/ S n' = n.
Proof.
  intros Hwf Hstep n n'.
  pose proof (wp_ok _ _ _ _ _ _
                (event_step_spec depth ksynth kdecay f st w Hwf) Hstep)
    as (tau & new & _ & _ & _ & _ & _ & _ & _ & _ & _ & _ & _ & Hev).
  unfold n, n'. destruct Hev as [Hev|(i & Hi & Hev)]; rewrite Hev.
  - left. rewrite length_app, length_map. simpl. lia.
  - right. rewrite length_remove_at; auto. apply length_map.
Qed.

(** ** Rates *)



(** X8: with [ksynth = 0] every event is a death: an iteration that
    returns has aged the molecules by the waiting time and removed one of
    them. *)
Theorem pure_decay_event_is_death depth ksynth kdecay f st w st' w' :
  valid (sim_arr st) (heap w) ->
  ksynth == 0 -> unifs_nonneg w ->
  event_step depth ksynth kdecay f st w = Ok (st', w') ->
  let old := deref (sim_arr st) (heap w) in
  exists tau i,
    t_now st' = t_now st + tau /\
    (i < length old)%nat /\
    deref (sim_arr st') (heap w')
      = remove_at i (map (fun y => y + tau) old) /\
    S (length (deref (sim_arr st') (heap w'))) = length old.
Proof.
  intros Hva Hk Hun Hstep old.
  pose proof (wp_ok _ _ _ _ _ _
                (event_step_draws depth ksynth kdecay f st w Hva) Hstep)
    as (e & u & Hd & _ & _ & Hu & Ht & _ & Hdeath).
  fold old in Hd, Ht, Hdeath.
  set (d := total_rate ksynth kdecay old) in *.
  assert (Hu0 : 0 <= u).
  { unfold unifs_nonneg in Hun. rewrite Hu in Hun. now inversion Hun. }
  assert (Hp : ksynth / d <= u).
  { apply Qle_shift_div_r; auto. nra. }
  destruct (Hdeath Hp) as (i & Hi & Hnew).
  rewrite length_map in Hi.
  exists (1 / d * e), i. conjuncts; auto.
  rewrite Hnew, length_remove_at; rewrite length_map; auto.
Qed.

(** X9: with [kdecay = 0] every event is a birth: an iteration that
    returns has aged the molecules by the waiting time and added one
    molecule of age 0. *)
Theorem pure_birth_event_is_birth depth ksynth kdecay f st w st' w' :
  valid (sim_arr st) (heap w) ->
  kdecay == 0 -> unifs_ok w ->
  event_step depth ksynth kdecay f st w = Ok (st', w') ->
  let old := deref (sim_arr st) (heap w) in
  exists tau,
    t_now st' = t_now st + tau /\
    deref (sim_arr st') (heap w') = map (fun y => y + tau) old ++ [0] /\
    length (deref (sim_arr st') (heap w')) = S (length old).
Proof.
  intros Hva Hk Hun Hstep old.
  pose proof (wp_ok _ _ _ _ _ _
                (event_step_draws depth ksynth kdecay f st w Hva) Hstep)
    as (e & u & Hd & _ & _ & Hu & Ht & Hbirth & _).
  fold old in Hd, Ht, Hbirth.
  set (d := total_rate ksynth kdecay old) in *.
  assert (Hu1 : u < 1).
  { unfold unifs_ok in Hun. rewrite Hu in Hun. now inversion Hun. }
  assert (Hdk : d == ksynth).
  { unfold d, total_rate. rewrite Hk. ring. }
  assert (Hp : u < ksynth / d).
  { apply Qlt_shift_div_l; auto. nra. }
  exists (1 / d * e). conjuncts; auto.
  rewrite (Hbirth Hp), length_app, length_map. simpl. lia.
Qed.

(** ** Counts along the record *)

Lemma neighbours_replace_last {A} (R : A -> A -> Prop) : forall l n m,
  neighbours R (l ++ [n]) -> (forall a, R a n -> R a m) ->
  neighbours R (l ++ [m]).
Proof.
  induction l as [|a l IH]; intros n m Hl Hnm; simpl; auto.
  destruct l as [|b l]; simpl in *.
  - split; auto. apply Hnm, Hl.
  - destruct Hl as [Hab Hl]. split; auto. eapply IH; eauto.
Qed.

Lemma neighbours_snoc {A} (R : A -> A -> Prop) : forall l n m,
  neighbours R (l ++ [n]) -> R n m -> neighbours R ((l ++ [n]) ++ [m]).
Proof.
  induction l as [|a l IH]; intros n m Hl Hnm; simpl; auto.
  destruct l as [|b l]; simpl in *.
  - destruct Hl as [Han _]. auto.
  - destruct Hl as [Hab Hl]. split; auto. apply (IH n m); auto.
Qed.

Lemma neighbours_prefix {A} (R : A -> A -> Prop) : forall l x,
  neighbours R (l ++ [x]) -> neighbours R l.
Proof.
  induction l as [|a l IH]; intros x Hl; simpl; auto.
  destruct l as [|b l]; simpl in *; auto.
  destruct Hl as [Hab Hl]. split; auto. eapply IH; eauto.
Qed.

Lemma neighbours_repeat {A} (R : A -> A -> Prop) l n k :
  R n n -> neighbours R (l ++ [n]) ->
  neighbours R ((l ++ repeat n k) ++ [n]).
Proof.
  intros Hn Hl. induction k as [|k IH]; simpl.
  - now rewrite app_nil_r.
  - rewrite repeat_cons, app_assoc. now apply neighbours_snoc.
Qed.

Lemma snapshots_extends s w w' :
  Forall (fun e => valid (snd e) (heap w)) s ->
  extends (heap w) (heap w') ->
  snapshots s w' = snapshots s w.
Proof.
  intros Hs Hext. unfold snapshots. apply map_ext_in.
  intros e He. rewrite Forall_forall in Hs. apply deref_extends; auto.
Qed.

Lemma recorded_snapshots a w w' new :
  recorded a (heap w) (heap w') new ->
  snapshots new w' = repeat (deref a (heap w)) (length new).
Proof.
  intros Hrec. induction Hrec as [|e new (_ & _ & He) _ IH]; simpl; auto.
  now rewrite He, IH.
Qed.

(** The sizes of the snapshots followed by the size of the live state. *)
Lemma counts_after_step depth ksynth kdecay f st w st' w' :
  wf_locals st (heap w) ->
  event_step depth ksynth kdecay f st w = Ok (st', w') ->
  wf_locals st' (heap w') /\
  exists k,
    map (@length Q) (snapshots (sim_series st') w')
    = map (@length Q) (snapshots (sim_series st) w)
      ++ repeat (length (deref (sim_arr st) (heap w))) k.
Proof.
  intros Hwf Hstep.
  pose proof (wp_ok _ _ _ _ _ _
                (event_step_spec depth ksynth kdecay f st w Hwf) Hstep)
    as (tau & new & Hs & _ & _ & _ & _ & _ & Hext & Hrec & Hwf' & _).
  split; auto. exists (length new).
  rewrite Hs. unfold snapshots at 1. rewrite map_app.
  fold (snapshots (sim_series st) w'). fold (snapshots new w').
  rewrite (snapshots_extends (sim_series st) w w'),
    (recorded_snapshots (sim_arr st) w w' new); auto.
  - now rewrite map_app, map_repeat.
  - destruct Hwf as [_ Hall]. eapply Forall_impl; [|exact Hall].
    now intros e [He _].
Qed.

(** When every event moves the size of the state along a preorder, the
    counts of the record follow it. *)
Lemma counts_follow depth ksynth kdecay t_final f
    (R : nat -> nat -> Prop) (J : world -> Prop) :
  (forall n, R n n) -> (forall a b c, R a b -> R b c -> R a c) ->
  (forall st w st1 w1,
      valid (sim_arr st) (heap w) -> J w ->
      event_step depth ksynth kdecay f st w = Ok (st1, w1) ->
      J w1 /\ R (length (deref (sim_arr st) (heap w)))
                (length (deref (sim_arr st1) (heap w1)))) ->
  forall a return_sim w r w',
    valid a (heap w) -> J (initial_world a w) ->
    one_state_simulation depth ksynth kdecay a t_final f return_sim w
      = Ok (r, w') ->
    neighbours R (ret_counts r).
Proof.
  intros Hrefl Htrans Hstep a return_sim w r w' Ha HJ Hrun.
  destruct (one_state_simulation_inv _ _ _ _ _ _ _ _ _ _ Hrun)
    as (st & Hloop & Hc & _).
  rewrite Hc.
  set (I := fun (st : locals) (w : world) =>
              wf_locals st (heap w) /\ J w /\
              neighbours R
                (map (@length Q) (snapshots (sim_series st) w)
                 ++ [length (deref (sim_arr st) (heap w))])).
  assert (HI : I st w').
  { refine (proj1 (event_loop_invariant depth ksynth kdecay t_final f I _
                     _ _ _ _ _ _ Hloop)).
    - intros st0 w0 st1 w1 (Hwf0 & HJ0 & Hn0) _ Hs0.
      destruct (counts_after_step _ _ _ _ _ _ _ _ Hwf0 Hs0)
        as (Hwf1 & k & Hk).
      destruct (Hstep _ _ _ _ (proj1 Hwf0) HJ0 Hs0) as [HJ1 HR].
      split; [|split]; auto.
      rewrite Hk. eapply neighbours_replace_last.
      + apply neighbours_repeat; eauto.
      + intros x Hx. eapply Htrans; eauto.
    - split; [|split]; auto.
      + now apply initial_wf.
      + simpl. rewrite deref_new.
        rewrite (deref_extends a (heap w) (heap w ++ [deref a (heap w)]));
          auto using extends_new. }
  destruct HI as (_ & _ & Hn). eapply neighbours_prefix; eauto.
Qed.

Lemma pure_decay_step_count depth ksynth kdecay f st w st' w' :
  valid (sim_arr st) (heap w) ->
  ksynth == 0 -> unifs_nonneg w ->
  event_step depth ksynth kdecay f st w = Ok (st', w') ->
  unifs_nonneg w' /\
  (length (deref (sim_arr st') (heap w'))
   <= length (deref (sim_arr st) (heap w)))%nat.
Proof.
  intros Hva Hk Hun Hstep.
  pose proof (wp_ok _ _ _ _ _ _
                (event_step_draws depth ksynth kdecay f st w Hva) Hstep)
    as (e & u & Hd & _ & _ & Hu & _ & _ & Hdeath).
  unfold unifs_nonneg in *. rewrite Hu in Hun. inversion Hun; subst.
  split; auto.
  assert (Hp : ksynth /
               total_rate ksynth kdecay (deref (sim_arr st) (heap w))
               <= u) by (apply Qle_shift_div_r; auto; nra).
  destruct (Hdeath Hp) as (i & Hi & ->).
  pose proof (length_remove_at _ _ Hi) as Hl.
  rewrite length_map in Hl. lia.
Qed.

Lemma pure_birth_step_count depth ksynth kdecay f st w st' w' :
  valid (sim_arr st) (heap w) ->
  kdecay == 0 -> unifs_ok w ->
  event_step depth ksynth kdecay f st w = Ok (st', w') ->
  unifs_ok w' /\
  (length (deref (sim_arr st) (heap w))
   <= length (deref (sim_arr st') (heap w')))%nat.
Proof.
  intros Hva Hk Hun Hstep.
  pose proof (wp_ok _ _ _ _ _ _
                (event_step_draws depth ksynth kdecay f st w Hva) Hstep)
    as (e & u & Hd & _ & _ & Hu & _ & Hbirth & _).
  unfold unifs_ok in *. rewrite Hu in Hun. inversion Hun; subst.
  split; auto.
  set (d := total_rate ksynth kdecay (deref (sim_arr st) (heap w))) in *.
  assert (Hdk : d == ksynth) by (unfold d, total_rate; rewrite Hk; ring).
  assert (Hp : u < ksynth / d) by (apply Qlt_shift_div_l; auto; nra).
  rewrite (Hbirth Hp), length_app, length_map. simpl. lia.
Qed.

(** X10: with [ksynth = 0] the counts returned never go up from one
    checkpoint to the next. *)
Theorem pure_decay_counts_do_not_increase
    depth ksynth kdecay a t_final f return_sim w r w' :
  valid a (heap w) ->
  ksynth == 0 -> unifs_nonneg w ->
  one_state_simulation depth ksynth kdecay a t_final f return_sim w
    = Ok (r, w') ->
  neighbours ge (ret_counts r).
Proof.
  intros Ha Hk Hun Hrun.
  apply (counts_follow depth ksynth kdecay t_final f ge unifs_nonneg)
    with (a := a) (return_sim := return_sim) (w := w) (w' := w'); auto.
  - intros x y z. unfold ge. lia.
  - intros st0 w0 st1 w1 Hva HJ Hs.
    now apply (pure_decay_step_count depth ksynth kdecay f st0 w0).
Qed.

(** X11: with [kdecay = 0] the counts returned never go down from one
    checkpoint to the next. *)
Theorem pure_birth_counts_do_not_decrease
    depth ksynth kdecay a t_final f return_sim w r w' :
  valid a (heap w) ->
  kdecay == 0 -> unifs_ok w ->
  one_state_simulation depth ksynth kdecay a t_final f return_sim w
    = Ok (r, w') ->
  neighbours le (ret_counts r).
Proof.
  intros Ha Hk Hun Hrun.
  apply (counts_follow depth ksynth kdecay t_final f le unifs_ok)
    with (a := a) (return_sim := return_sim) (w := w) (w' := w'); auto.
  - intros x y z. lia.
  - intros st0 w0 st1 w1 Hva HJ Hs.
    now apply (pure_birth_step_count depth ksynth kdecay f st0 w0).
Qed.

(** ** Ages *)

Lemma ages_within_weaken hi hi' v :
  hi <= hi' -> ages_within hi v -> ages_within hi' v.
Proof.
  intros Hle Hv. eapply Forall_impl; [|exact Hv]. simpl. intros x Hx. lra.
Qed.

Lemma Forall_remove_at {A} (P : A -> Prop) : forall l i,
  Forall P l -> Forall P (remove_at i l).
Proof.
  induction l as [|x l IH]; intros i Hl.
  - destruct i; exact Hl.
  - inversion Hl; subst. destruct i; simpl.
    + assumption.
    + constructor; auto.
Qed.

Lemma ladder_lower f : 0 <= f -> forall l a stop,
  ladder a f l stop -> Forall (fun x => a <= x) l.
Proof.
  intros Hf. induction l as [|x l IH]; intros a stop Hl; simpl in Hl; auto.
  destruct Hl as [-> Hl]. constructor; [lra|].
  eapply Forall_impl; [|exact (IH _ _ Hl)]. simpl. intros y Hy. lra.
Qed.

(** The ages of the live state stay between 0 and the simulated time plus
    the bound [M] on the initial ages, and the ages of a snapshot between 0
    and the time of its checkpoint plus [M]. *)
Lemma ages_after_step depth ksynth kdecay f M st w st' w' :
  0 <= M ->
  let I := fun (st : locals) (w : world) =>
             wf_locals st (heap w) /\ expos_ok w /\ 0 <= t_now st /\
             (0 < f -> t_now st <= next_checkpt st) /\
             ages_within (t_now st + M) (deref (sim_arr st) (heap w)) /\
             Forall (fun e => ages_within (fst e + M)
                                (deref (snd e) (heap w))) (sim_series st) in
  I st w ->
  event_step depth ksynth kdecay f st w = Ok (st', w') ->
  I st' w'.
Proof.
  intros HM I (Hwf & Hex & Ht0 & Htn & Hlive & Hsnap) Hstep.
  pose proof (wp_ok _ _ _ _ _ _
                (event_step_spec depth ksynth kdecay f st w Hwf) Hstep)
    as (tau & new & Hs & Hl & Hf & _ & Hge & Ht & Hext & Hrec & Hwf' & _).
  pose proof (wp_ok _ _ _ _ _ _
                (event_step_draws depth ksynth kdecay f st w (proj1 Hwf))
                Hstep)
    as (e & u & Hd & _ & He & _ & Ht' & Hbirth & Hdeath).
  set (old := deref (sim_arr st) (heap w)) in *.
  set (d := total_rate ksynth kdecay old) in *.
  unfold expos_ok in Hex. rewrite He in Hex. inversion Hex as [|? ? He0 Hex'].
  subst.
  assert (Hscale : 0 < 1 / d) by (apply Qlt_shift_div_l; lra).
  assert (Htau : 0 <= 1 / d * e) by nra.
  assert (Haged : ages_within (t_now st' + M)
                    (map (fun y => y + 1 / d * e) old)).
  { unfold ages_within. rewrite Forall_map, Ht'.
    eapply Forall_impl; [|exact Hlive]. simpl. intros x Hx. lra. }
  unfold I. conjuncts; auto.
  - rewrite Ht'. lra.
  - intros _. rewrite Ht. exact Hge.
  - destruct (Qlt_le_dec u (ksynth / d)) as [Hlt|Hle].
    + rewrite (Hbirth Hlt). apply Forall_app. split; auto.
      constructor; [|constructor]. rewrite Ht'. lra.
    + destruct (Hdeath Hle) as (i & _ & ->). now apply Forall_remove_at.
  - rewrite Hs. apply Forall_app. split.
    + destruct Hwf as [_ Hall]. rewrite Forall_forall in *.
      intros x Hx. destruct (Hall x Hx) as [Hv _].
      rewrite (deref_extends _ _ _ Hext Hv). now apply Hsnap.
    + destruct new as [|x0 new0]; [constructor|].
      assert (Hfpos : 0 < f) by (apply Hf; discriminate).
      pose proof (ladder_lower f (Qlt_le_weak _ _ Hfpos) _ _ _ Hl) as Hlow.
      unfold recorded in Hrec. rewrite Forall_forall in *.
      intros x Hx. destruct (Hrec x Hx) as (_ & _ & ->).
      assert (Hin : In (fst x) (times (x0 :: new0)))
        by (unfold times; now apply in_map).
      specialize (Hlow _ Hin). specialize (Htn Hfpos).
      fold old. eapply ages_within_weaken; [|exact Hlive]. lra.
Qed.

Lemma ages_of_run depth ksynth kdecay a t_final f return_sim w r w' M :
  valid a (heap w) -> expos_ok w -> 0 <= M ->
  ages_within M (deref a (heap w)) ->
  one_state_simulation depth ksynth kdecay a t_final f return_sim w
    = Ok (r, w') ->
  exists s,
    ret_ages r = map np_mean (snapshots s w') /\
    (return_sim = true -> r = Triple (ret_counts r) (ret_ages r) s) /\
    Forall (fun e => ages_within (fst e + M) (deref (snd e) (heap w'))) s.
Proof.
  intros Ha Hex HM Hinit Hrun.
  destruct (one_state_simulation_inv _ _ _ _ _ _ _ _ _ _ Hrun)
    as (st & Hloop & _ & Hages & Hret).
  exists (sim_series st). conjuncts; auto.
  refine (proj2 (proj2 (proj2 (proj2 (proj2 (proj1
           (event_loop_invariant depth ksynth kdecay t_final f _
              (fun st0 w0 st1 w1 HI _ Hs =>
                 ages_after_step depth ksynth kdecay f M st0 w0 st1 w1 HM
                   HI Hs)
              _ _ _ _ _ _ Hloop))))))).
  assert (Hd : deref a (heap (initial_world a w)) = deref a (heap w)).
  { simpl. apply deref_extends; auto using extends_new. }
  assert (Hw : ages_within (0 + M) (deref a (heap w))).
  { eapply ages_within_weaken; [|exact Hinit]. lra. }
  conjuncts.
  - now apply initial_wf.
  - exact Hex.
  - apply Qle_refl.
  - cbn [t_now next_checkpt initial_locals]. intros Hf. lra.
  - cbn [t_now sim_arr initial_locals]. now rewrite Hd.
  - constructor; [|constructor]. cbn [fst snd initial_world heap].
    now rewrite deref_new.
Qed.

(** X12: when the initial ages are between 0 and [M] and the exponential
    variates are non-negative, every age in the snapshot of a checkpoint is
    between 0 and the time of the checkpoint plus [M]. *)
Theorem snapshot_ages_bounded
    depth ksynth kdecay a t_final f w cts ages s w' M :
  valid a (heap w) -> expos_ok w -> 0 <= M ->
  ages_within M (deref a (heap w)) ->
  one_state_simulation depth ksynth kdecay a t_final f true w
    = Ok (Triple cts ages s, w') ->
  Forall (fun e => ages_within (fst e + M) (deref (snd e) (heap w'))) s.
Proof.
  intros Ha Hex HM Hinit Hrun.
  destruct (ages_of_run _ _ _ _ _ _ _ _ _ _ _ Ha Hex HM Hinit Hrun)
    as (s0 & _ & Hret & Hall).
  specialize (Hret eq_refl). injection Hret as ->. exact Hall.
Qed.




(** ** Simulated time *)

(** X14: with non-negative exponential variates the simulated time never
    goes back, and a checkpoint is recorded only once the simulated time
    has gone strictly past it: when the loop returns, every checkpoint it
    has added lies before the time reached. *)
Theorem checkpoints_lie_behind_time
    depth ksynth kdecay t_final f fuel st w st' w' :
  wf_locals st (heap w) -> expos_ok w ->
  event_loop depth ksynth kdecay t_final f fuel st w = Ok (st', w') ->
  t_now st <= t_now st' /\
  exists new,
    sim_series st' = sim_series st ++ new /\
    Forall (fun x => x < t_now st') (times new).
Proof.
  intros Hwf Hex Hloop.
  set (I := fun (st1 : locals) (w1 : world) =>
              wf_locals st1 (heap w1) /\ expos_ok w1 /\
              t_now st <= t_now st1 /\
              exists new,
                sim_series st1 = sim_series st ++ new /\
                Forall (fun x => x < t_now st1) (times new)).
  assert (HI : I st' w').
  { refine (proj1 (event_loop_invariant depth ksynth kdecay t_final f I _
                     _ _ _ _ _ _ Hloop)).
    - intros st0 w0 st1 w1 (Hwf0 & Hex0 & Ht0 & new0 & Hs0 & Hn0) _ Hstep.
      pose proof (wp_ok _ _ _ _ _ _
                    (event_step_spec depth ksynth kdecay f st0 w0 Hwf0)
                    Hstep)
        as (tau & new & Hs & _ & _ & Hlts & _ & Ht & _ & _ & Hwf1 & _).
      pose proof (wp_ok _ _ _ _ _ _
                    (event_step_draws depth ksynth kdecay f st0 w0
                       (proj1 Hwf0)) Hstep)
        as (e & u & Hd & _ & He & _ & Ht' & _).
      unfold expos_ok in Hex0. rewrite He in Hex0.
      inversion Hex0 as [|? ? He0 Hex1]. subst.
      set (d := total_rate ksynth kdecay
                  (deref (sim_arr st0) (heap w0))) in *.
      assert (Hscale : 0 < 1 / d) by (apply Qlt_shift_div_l; lra).
      assert (Htau : 0 <= 1 / d * e) by nra.
      assert (Hmono : t_now st0 <= t_now st1) by (rewrite Ht'; lra).
      unfold I. conjuncts; auto.
      + lra.
      + exists (new0 ++ new). split.
        * now rewrite Hs, Hs0, app_assoc.
        * rewrite times_app. apply Forall_app. split.
          -- eapply Forall_impl; [|exact Hn0]. simpl. intros x Hx. lra.
          -- now rewrite Ht.
    - unfold I. conjuncts; auto.
      + apply Qle_refl.
      + exists []. rewrite app_nil_r. split; [reflexivity|constructor]. }
  destruct HI as (_ & _ & Ht & Hnew). now split.
Qed.

(** X15: valid parameters do not exclude [RecursionError]: when the first
    waiting time passes more checkpoints than the stack has frames for,
    the call raises it. *)
Theorem long_first_wait_raises
    depth ksynth kdecay a t_final f return_sim w e es :
  valid a (heap w) ->
  0 < f -> f < t_final ->
  0 < total_rate ksynth kdecay (deref a (heap w)) ->
  expos w = e :: es ->
  f + inject_Z (Z.of_nat depth) * f
    < 1 / total_rate ksynth kdecay (deref a (heap w)) * e ->
  one_state_simulation (S depth) ksynth kdecay a t_final f return_sim w
    = Raise RecursionError.
Proof.
  intros Ha Hf Hlt Hd He Hfar.
  unfold one_state_simulation, singleton_series, np_copy, alloc, bind, ret.
  fold (initial_world a w). fold (initial_locals a f w).
  cbn [expos initial_world]. rewrite He. cbn [length event_loop].
  cbn [next_checkpt initial_locals].
  replace (Qltb f t_final) with true by (symmetry; now apply Qltb_true).
  unfold bind at 1.
  assert (Hderef : deref (sim_arr (initial_locals a f w))
                     (heap (initial_world a w)) = deref a (heap w)).
  { simpl. apply deref_extends; auto. apply extends_new. }
  rewrite (event_step_until_recorder (S depth) ksynth kdecay f
             (initial_locals a f w) (initial_world a w) e es)
    with (err := RecursionError); auto.
  - now rewrite Hderef.
  - apply recorder_overflow. intros k Hk.
    rewrite Hderef. cbn [next_checkpt t_now initial_locals].
    assert (inject_Z (Z.of_nat k) <= inject_Z (Z.of_nat depth))
      by (apply inject_nat_le; lia).
    nra.
Qed.

(** ** Progress of an iteration *)


(** ** The further properties at concrete inputs *)


Lemma recorder_nonpositive_freq_witness :
  _recursive_update_output 1000 [] 0%nat 0 1 0 0 overshoot_world
    = Raise RecursionError.
Proof.
  apply (recorder_nonpositive_freq 1000 [] 0%nat 0 1 0 0 overshoot_world).
  - discriminate.
  - reflexivity.
Defined.

Lemma nonpositive_freq_raises_witness :
  one_state_simulation 1000 1 1 0%nat 5 0 false overshoot_world
    = Raise RecursionError.
Proof.
  apply (nonpositive_freq_raises 1000 1 1 0%nat 5 0 false overshoot_world
           (1 # 2) [4]).
  - exact overshoot_valid.
  - discriminate.
  - reflexivity.
  - reflexivity.
  - reflexivity.
  - reflexivity.
Defined.


Lemma first_checkpoint_is_initial_state_witness :
  exists r w',
    one_state_simulation 1000 1 1 0%nat 2 1 false decay_world = Ok (r, w') /\
    hd_error (ret_counts r) = Some 3%nat /\
    hd_error (ret_ages r) = Some (np_mean [0; 0; 0]).
Proof.
  do 2 eexists. split; [vm_compute; reflexivity|].
  eapply (first_checkpoint_is_initial_state 1000 1 1 0%nat 2 1 false
            decay_world).
  - unfold valid. simpl. lia.
  - vm_compute. reflexivity.
Defined.

Lemma event_changes_count_by_one_witness :
  exists st' w',
    event_step 1000 1 1 1 long_wait_locals long_wait_world = Ok (st', w') /\
    (length (deref (sim_arr st') (heap w')) = 3%nat \/
     S (length (deref (sim_arr st') (heap w'))) = 2%nat).
Proof.
  do 2 eexists. split; [vm_compute; reflexivity|].
  eapply (event_changes_count_by_one 1000 1 1 1 long_wait_locals
            long_wait_world).
  - exact long_wait_wf.
  - vm_compute. reflexivity.
Defined.


Lemma pure_decay_event_is_death_witness :
  exists st' w',
    event_step 1000 0 (1 # 10) 1 long_wait_locals long_wait_world
      = Ok (st', w') /\
    exists tau i,
      t_now st' = 0 + tau /\
      (i < 2)%nat /\
      deref (sim_arr st') (heap w')
        = remove_at i (map (fun y => y + tau) [3; 4]) /\
      S (length (deref (sim_arr st') (heap w'))) = 2%nat.
Proof.
  do 2 eexists. split; [vm_compute; reflexivity|].
  eapply (pure_decay_event_is_death 1000 0 (1 # 10) 1 long_wait_locals
            long_wait_world).
  - exact (proj1 long_wait_wf).
  - reflexivity.
  - repeat constructor; discriminate.
  - vm_compute. reflexivity.
Defined.

Lemma pure_birth_event_is_birth_witness :
  exists st' w',
    event_step 1000 1 0 1 long_wait_locals long_wait_world = Ok (st', w') /\
    exists tau,
      t_now st' = 0 + tau /\
      deref (sim_arr st') (heap w')
        = map (fun y => y + tau) [3; 4] ++ [0] /\
      length (deref (sim_arr st') (heap w')) = 3%nat.
Proof.
  do 2 eexists. split; [vm_compute; reflexivity|].
  eapply (pure_birth_event_is_birth 1000 1 0 1 long_wait_locals
            long_wait_world).
  - exact (proj1 long_wait_wf).
  - reflexivity.
  - repeat constructor.
  - vm_compute. reflexivity.
Defined.

Lemma pure_decay_counts_do_not_increase_witness :
  exists r w',
    one_state_simulation 1000 0 (1 # 10) 0%nat 20 10 false decay_world
      = Ok (r, w') /\
    ret_counts r = [3; 1]%nat /\
    neighbours ge (ret_counts r).
Proof.
  do 2 eexists. split; [vm_compute; reflexivity|]. split; [reflexivity|].
  eapply (pure_decay_counts_do_not_increase 1000 0 (1 # 10) 0%nat 20 10
            false decay_world).
  - unfold valid. simpl. lia.
  - reflexivity.
  - repeat constructor; discriminate.
  - vm_compute. reflexivity.
Defined.

Lemma pure_birth_counts_do_not_decrease_witness :
  exists r w',
    one_state_simulation 1000 1 0 0%nat 2 1 false overshoot_world
      = Ok (r, w') /\
    neighbours le (ret_counts r).
Proof.
  do 2 eexists. split; [vm_compute; reflexivity|].
  eapply (pure_birth_counts_do_not_decrease 1000 1 0 0%nat 2 1 false
            overshoot_world).
  - exact overshoot_valid.
  - reflexivity.
  - repeat constructor.
  - vm_compute. reflexivity.
Defined.

Lemma snapshot_ages_bounded_witness :
  exists cts ages s w',
    one_state_simulation 1000 1 1 0%nat 2 1 true decay_world
      = Ok (Triple cts ages s, w') /\
    Forall (fun e => ages_within (fst e + 0) (deref (snd e) (heap w'))) s.
Proof.
  do 4 eexists. split; [vm_compute; reflexivity|].
  eapply (snapshot_ages_bounded 1000 1 1 0%nat 2 1 decay_world).
  - unfold valid. simpl. lia.
  - repeat constructor; discriminate.
  - discriminate.
  - repeat constructor; discriminate.
  - vm_compute. reflexivity.
Defined.


Lemma checkpoints_lie_behind_time_witness :
  exists st' w',
    event_loop 1000 1 1 3 1 5 long_wait_locals long_wait_world
      = Ok (st', w') /\
    length (sim_series st') = 4%nat /\
    0 <= t_now st' /\
    exists new,
      sim_series st' = sim_series long_wait_locals ++ new /\
      Forall (fun x => x < t_now st') (times new).
Proof.
  do 2 eexists. split; [vm_compute; reflexivity|]. split; [reflexivity|].
  eapply (checkpoints_lie_behind_time 1000 1 1 3 1 5 long_wait_locals
            long_wait_world).
  - exact long_wait_wf.
  - repeat constructor; discriminate.
  - vm_compute. reflexivity.
Defined.

Lemma long_first_wait_raises_witness :
  one_state_simulation 3 1 1 0%nat 240 1 false far_world
    = Raise RecursionError.
Proof.
  apply (long_first_wait_raises 2 1 1 0%nat 240 1 false far_world 100 []).
  - unfold valid. simpl. lia.
  - reflexivity.
  - reflexivity.
  - reflexivity.
  - reflexivity.
  - reflexivity.
Defined.

